(** * Daydev utils: a shallow embedding of crypto, jwt and logx1

    The Go module [github.com/Daydev-Org/utils] is a set of leaf packages.
    This development embeds the three that carry behaviour:

    - [crypto]: [GenerateRefreshToken] and [HashToken];
    - [jwt]:    [GenerateToken];
    - [logx1]:  [Sync].

    The packages call into the Go standard library ([encoding/base64],
    [encoding/hex], [crypto/sha256], [crypto/hmac], [errors]) and into
    [golang-jwt/jwt/v5].  Those callees are modelled here as executable
    functions that follow the library sources, so that the repository
    functions can be evaluated on concrete inputs.  The models of SHA-256,
    HMAC, base64 and hex are then proved equal to definitions written from
    FIPS 180-4, RFC 2104, RFC 4648 and base 16. *)

From Stdlib Require Import ZArith List Bool Ascii String Lia.
From Stdlib Require Import Strings.Byte Lists.Finite.
Import ListNotations.

Local Open Scope Z_scope.

(** ** Machine integers and byte slices *)

(** A Go [byte] is [Byte.byte]; a [[]byte] is [list byte]; a Go [string] is a
    Rocq [string] (a sequence of 8-bit characters).  [uint32] and [uint]
    values are [Z] with the wrap-around written out. *)

Definition byte_val (b : byte) : Z := Z.of_N (Byte.to_N b).

(** [uint8 z] is the Go conversion [byte(z)]: the low eight bits. *)
Definition uint8 (z : Z) : byte :=
  match Byte.of_N (Z.to_N (z mod 256)) with
  | Some b => b
  | None => x00
  end.

Definition uint32 (z : Z) : Z := z mod 2 ^ 32.
Definition uint64 (z : Z) : Z := z mod 2 ^ 64.

(** [[]byte(s)] and [string(b)]. *)
Definition bytes_of_string (s : string) : list byte := list_byte_of_string s.
Definition string_of_bytes (b : list byte) : string := string_of_list_byte b.

(** [s[i]] for an index that the callers keep in range; Go would panic
    outside it. *)
Definition index (s : string) (i : Z) : ascii :=
  match String.get (Z.to_nat i) s with
  | Some c => c
  | None => Ascii.zero
  end.

(** ** syscall and errors *)
Module syscall.

(** [type Errno uintptr]. *)
Definition Errno : Type := Z.

(** Linux values; no proof below depends on the numbers. *)
Definition EINVAL : Errno := 0x16.
Definition ENOTTY : Errno := 0x19.

End syscall.

(** Go errors.  [error] is an interface; the dynamic types that can reach
    this module are listed as constructors.  A nil [error] is [None]. *)
Module errors.

#[local] Unset Elimination Schemes.

Inductive error : Type :=
| ErrnoError (e : syscall.Errno)
    (* syscall.Errno: a comparable integer value, no Unwrap *)
| errorString (s : string)
    (* errors.New(s): no Unwrap *)
| PathError (Op Path : string) (Err : option error)
    (* *os.PathError: Unwrap() error returns Err *)
| wrapError (msg : string) (err : option error)
    (* fmt.Errorf with one %w verb: Unwrap() error *)
| joinError (errs : list error).
    (* errors.Join / multierr: Unwrap() []error *)

#[local] Set Elimination Schemes.

(** The walk [is(err, target)] of package [errors], for a target of dynamic type
    [syscall.Errno], the only targets this module passes.  [err == target]
    holds exactly for an [Errno] of the same number; [Errno.Is] answers
    true only for the [os] sentinel errors, never for an [Errno] target;
    otherwise the walk follows [Unwrap], depth first. *)
Fixpoint is_errno (err : error) (target : syscall.Errno) : bool :=
  match err with
  | ErrnoError e => e =? target
  | errorString _ => false
  | PathError _ _ inner
  | wrapError _ inner =>
      match inner with
      | Some e => is_errno e target
      | None => false
      end
  | joinError errs =>
      (fix any (l : list error) : bool :=
         match l with
         | [] => false
         | e :: l' => if is_errno e target then true else any l'
         end) errs
  end.

(** [errors.Is(err, target)]: a nil [err] never matches a non-nil
    target. *)
Definition Is (err : option error) (target : syscall.Errno) : bool :=
  match err with
  | None => false
  | Some e => is_errno e target
  end.

(** [errors.as] for a target of type [**os.PathError]: the first error of
    the tree, in depth-first order, whose dynamic type is
    [*os.PathError]. *)
Fixpoint as_PathError (err : error) : option error :=
  match err with
  | ErrnoError _ => None
  | errorString _ => None
  | PathError _ _ _ => Some err
  | wrapError _ inner =>
      match inner with
      | Some e => as_PathError e
      | None => None
      end
  | joinError errs =>
      (fix first (l : list error) : option error :=
         match l with
         | [] => None
         | e :: l' =>
             match as_PathError e with
             | Some p => Some p
             | None => first l'
             end
         end) errs
  end.

(** [errors.As(err, &perr)] with [var perr *os.PathError]: the boolean
    result is [Some _]; the payload is the value stored in [perr]. *)
Definition As_PathError (err : option error) : option error :=
  match err with
  | None => None
  | Some e => as_PathError e
  end.

End errors.
Export errors.

(** ** encoding/hex *)
Module hex.

Definition hextable : string := "0123456789abcdef".

(** [Encode]: for each source byte [v], the characters
    [hextable[v>>4]] and [hextable[v&0x0f]]. *)
Fixpoint EncodeToString (src : list byte) : string :=
  match src with
  | [] => EmptyString
  | v :: rest =>
      String (index hextable (Z.shiftr (byte_val v) 4))
        (String (index hextable (Z.land (byte_val v) 0x0f))
           (EncodeToString rest))
  end.

(** The value of one hexadecimal digit, as [reverseHexTable] gives it;
    [None] for a character that is not a digit. *)
Definition fromHexChar (c : ascii) : option Z :=
  let n := Z.of_nat (nat_of_ascii c) in
  if (48 <=? n) && (n <=? 57) then Some (n - 48)
  else if (97 <=? n) && (n <=? 102) then Some (n - 97 + 10)
  else if (65 <=? n) && (n <=? 70) then Some (n - 65 + 10)
  else None.

(** [DecodeString]: [None] stands for [InvalidByteError] and
    [ErrLength]. *)
Fixpoint DecodeString (s : string) : option (list byte) :=
  match s with
  | EmptyString => Some []
  | String _ EmptyString => None
  | String p (String q rest) =>
      match fromHexChar p, fromHexChar q, DecodeString rest with
      | Some a, Some b, Some l => Some (uint8 (Z.lor (Z.shiftl a 4) b) :: l)
      | _, _, _ => None
      end
  end.

End hex.

(** ** crypto/sha256 *)
Module sha256.

Definition Size : nat := 32.
Definition chunk : nat := 64.

(** The round constants [_K], eight rounds to a row. *)
Definition _K : list Z :=
  [ 0x428a2f98; 0x71374491; 0xb5c0fbcf; 0xe9b5dba5;
    0x3956c25b; 0x59f111f1; 0x923f82a4; 0xab1c5ed5 ] ++
  [ 0xd807aa98; 0x12835b01; 0x243185be; 0x550c7dc3;
    0x72be5d74; 0x80deb1fe; 0x9bdc06a7; 0xc19bf174 ] ++
  [ 0xe49b69c1; 0xefbe4786; 0x0fc19dc6; 0x240ca1cc;
    0x2de92c6f; 0x4a7484aa; 0x5cb0a9dc; 0x76f988da ] ++
  [ 0x983e5152; 0xa831c66d; 0xb00327c8; 0xbf597fc7;
    0xc6e00bf3; 0xd5a79147; 0x06ca6351; 0x14292967 ] ++
  [ 0x27b70a85; 0x2e1b2138; 0x4d2c6dfc; 0x53380d13;
    0x650a7354; 0x766a0abb; 0x81c2c92e; 0x92722c85 ] ++
  [ 0xa2bfe8a1; 0xa81a664b; 0xc24b8b70; 0xc76c51a3;
    0xd192e819; 0xd6990624; 0xf40e3585; 0x106aa070 ] ++
  [ 0x19a4c116; 0x1e376c08; 0x2748774c; 0x34b0bcb5;
    0x391c0cb3; 0x4ed8aa4a; 0x5b9cca4f; 0x682e6ff3 ] ++
  [ 0x748f82ee; 0x78a5636f; 0x84c87814; 0x8cc70208;
    0x90befffa; 0xa4506ceb; 0xbef9a3f7; 0xc67178f2 ].

(** The chaining value [h [8]uint32] of the digest. *)
Record hash8 : Type := mkH {
  h0 : Z; h1 : Z; h2 : Z; h3 : Z; h4 : Z; h5 : Z; h6 : Z; h7 : Z
}.

Definition init : hash8 :=
  mkH 0x6a09e667 0xbb67ae85 0x3c6ef372 0xa54ff53a
      0x510e527f 0x9b05688c 0x1f83d9ab 0x5be0cd19.

(** [bits.RotateLeft32(x, -k)] on a 32-bit word. *)
Definition rotr (x : Z) (k : Z) : Z :=
  Z.lor (Z.shiftr x k) (uint32 (Z.shiftl x (32 - k))).

(** [^x] on a [uint32]. *)
Definition not32 (x : Z) : Z := Z.lxor x 0xffffffff.

Definition add32 (x y : Z) : Z := uint32 (x + y).

(** [w[i]] for [i < 16]: a big-endian word of the block [p]. *)
Definition be_word (p : list byte) (i : nat) : Z :=
  let j := (i * 4)%nat in
  Z.lor (Z.lor (Z.lor
    (Z.shiftl (byte_val (nth j p x00)) 24)
    (Z.shiftl (byte_val (nth (j + 1) p x00)) 16))
    (Z.shiftl (byte_val (nth (j + 2) p x00)) 8))
    (byte_val (nth (j + 3) p x00)).

(** The message schedule [w [64]uint32] of one block. *)
Definition schedule (p : list byte) : list Z :=
  fold_left
    (fun w i =>
       let v1 := nth (i - 2) w 0 in
       let t1 := Z.lxor (Z.lxor (rotr v1 17) (rotr v1 19)) (Z.shiftr v1 10) in
       let v2 := nth (i - 15) w 0 in
       let t2 := Z.lxor (Z.lxor (rotr v2 7) (rotr v2 18)) (Z.shiftr v2 3) in
       w ++ [add32 (add32 (add32 t1 (nth (i - 7) w 0)) t2) (nth (i - 16) w 0)])
    (seq 16 48)
    (map (be_word p) (seq 0 16)).

(** One round of the compression loop on the working variables. *)
Definition round (w : list Z) (s : hash8) (i : nat) : hash8 :=
  let '(mkH a b c d e f g h) := s in
  let t1 :=
    add32 (add32 (add32 (add32 h
      (Z.lxor (Z.lxor (rotr e 6) (rotr e 11)) (rotr e 25)))
      (Z.lxor (Z.land e f) (Z.land (not32 e) g)))
      (nth i _K 0))
      (nth i w 0) in
  let t2 :=
    add32 (Z.lxor (Z.lxor (rotr a 2) (rotr a 13)) (rotr a 22))
          (Z.lxor (Z.lxor (Z.land a b) (Z.land a c)) (Z.land b c)) in
  mkH (add32 t1 t2) a b c (add32 d t1) e f g.

(** The body of [blockGeneric]'s loop for one 64-byte chunk. *)
Definition block1 (s : hash8) (p : list byte) : hash8 :=
  let w := schedule p in
  let r := fold_left (round w) (seq 0 64) s in
  mkH (add32 (h0 s) (h0 r)) (add32 (h1 s) (h1 r))
      (add32 (h2 s) (h2 r)) (add32 (h3 s) (h3 r))
      (add32 (h4 s) (h4 r)) (add32 (h5 s) (h5 r))
      (add32 (h6 s) (h6 r)) (add32 (h7 s) (h7 r)).

(** [blockGeneric]: [for len(p) >= chunk { ...; p = p[chunk:] }]. *)
Definition block (s : hash8) (p : list byte) : hash8 :=
  fold_left
    (fun s i => block1 s (firstn chunk (skipn (i * chunk) p)))
    (seq 0 (List.length p / chunk))
    s.

(** The [digest] struct: chaining value, buffered tail [x[:nx]] and the
    byte count [len uint64]. *)
Record digest : Type := mkDigest {
  h : hash8;
  x : list byte;
  len : Z
}.

Definition Reset : digest := mkDigest init [] 0.

(** [Write]: hash every complete chunk of the buffered tail followed by
    [p]; keep the rest buffered. *)
Definition Write (d : digest) (p : list byte) : digest :=
  let buf := x d ++ p in
  let n := ((List.length buf / chunk) * chunk)%nat in
  mkDigest (block (h d) (firstn n buf))
           (skipn n buf)
           (uint64 (len d + Z.of_nat (List.length p))).

(** [byteorder.BEPutUint64] and [byteorder.BEPutUint32]. *)
Definition BEPutUint64 (v : Z) : list byte :=
  [ uint8 (Z.shiftr v 56); uint8 (Z.shiftr v 48);
    uint8 (Z.shiftr v 40); uint8 (Z.shiftr v 32);
    uint8 (Z.shiftr v 24); uint8 (Z.shiftr v 16);
    uint8 (Z.shiftr v 8);  uint8 v ].

Definition BEPutUint32 (v : Z) : list byte :=
  [ uint8 (Z.shiftr v 24); uint8 (Z.shiftr v 16);
    uint8 (Z.shiftr v 8);  uint8 v ].

(** The padding that [checkSum] writes for a message of [l] bytes: 0x80,
    zeros up to 56 mod 64, then the bit length as a big-endian [uint64]. *)
Definition padlen (l : Z) : list byte :=
  let t := if l mod 64 <? 56 then 56 - l mod 64 else 64 + 56 - l mod 64 in
  (x80 :: repeat x00 (Z.to_nat t - 1)) ++ BEPutUint64 (uint64 (Z.shiftl l 3)).

(** The digest after [d.Write(padlen)]; [checkSum] panics if anything is
    still buffered at this point ([d.nx != 0]). *)
Definition finish (d : digest) : digest := Write d (padlen (len d)).

(** [checkSum]: pad, then serialise the chaining value. *)
Definition checkSum (d : digest) : list byte :=
  let s := h (finish d) in
  BEPutUint32 (h0 s) ++ BEPutUint32 (h1 s) ++
  BEPutUint32 (h2 s) ++ BEPutUint32 (h3 s) ++
  BEPutUint32 (h4 s) ++ BEPutUint32 (h5 s) ++
  BEPutUint32 (h6 s) ++ BEPutUint32 (h7 s).

(** [Sum256(data)]. *)
Definition Sum256 (data : list byte) : list byte :=
  checkSum (Write Reset data).

End sha256.

(** ** crypto/hmac *)
Module hmac.

Definition xor_byte (k : Z) (b : byte) : byte := uint8 (Z.lxor (byte_val b) k).

(** [hmac.New(sha256.New, key)] followed by [Write(msg)] and [Sum(nil)]:
    a key longer than the block size is hashed first, then zero-padded to
    the block size; the inner and outer pads are the key xor 0x36 and
    0x5c. *)
Definition SumSHA256 (key msg : list byte) : list byte :=
  let blocksize := sha256.chunk in
  let key := if (blocksize <? List.length key)%nat then sha256.Sum256 key else key in
  let padded := key ++ repeat x00 (blocksize - List.length key) in
  let ipad := map (xor_byte 0x36) padded in
  let opad := map (xor_byte 0x5c) padded in
  sha256.Sum256 (opad ++ sha256.Sum256 (ipad ++ msg)).

End hmac.

(** ** encoding/base64 *)
Module base64.

Local Open Scope string_scope.

(** [type Encoding struct]: the 64-character alphabet and the padding
    character, [None] being [NoPadding]. *)
Record Encoding : Type := mkEncoding {
  encode : string;
  padChar : option ascii
}.

Definition StdPadding : ascii := "="%char.

Definition encodeURL : string :=
  "ABCDEFGHIJKLMNOPQRSTUVWXYZabcdefghijklmnopqrstuvwxyz0123456789-_".

Definition NewEncoding (encoder : string) : Encoding :=
  mkEncoding encoder (Some StdPadding).

Definition WithPadding (enc : Encoding) (padding : option ascii) : Encoding :=
  mkEncoding (encode enc) padding.

Definition URLEncoding : Encoding := NewEncoding encodeURL.
Definition RawURLEncoding : Encoding := WithPadding URLEncoding None.

(** [enc.encode[val>>k&0x3F]]. *)
Definition sextet (enc : Encoding) (val : Z) (k : Z) : ascii :=
  index (encode enc) (Z.land (Z.shiftr val k) 0x3F).

(** [Encode]: three source bytes become four characters; a remaining
    block of one or two bytes becomes two or three characters, followed by
    padding characters only when the encoding has one. *)
Fixpoint EncodeToString (enc : Encoding) (src : list byte) : string :=
  match src with
  | [] => ""
  | [s0] =>
      let val := Z.shiftl (byte_val s0) 16 in
      String (sextet enc val 18) (String (sextet enc val 12)
        match padChar enc with
        | Some c => String c (String c "")
        | None => ""
        end)
  | [s0; s1] =>
      let val := Z.lor (Z.shiftl (byte_val s0) 16) (Z.shiftl (byte_val s1) 8) in
      String (sextet enc val 18) (String (sextet enc val 12)
        (String (sextet enc val 6)
        match padChar enc with
        | Some c => String c ""
        | None => ""
        end))
  | s0 :: s1 :: s2 :: rest =>
      let val := Z.lor (Z.lor (Z.shiftl (byte_val s0) 16)
                              (Z.shiftl (byte_val s1) 8))
                       (byte_val s2) in
      String (sextet enc val 18) (String (sextet enc val 12)
        (String (sextet enc val 6) (String (sextet enc val 0)
          (EncodeToString enc rest))))
  end.

(** [EncodedLen(n)]. *)
Definition EncodedLen (enc : Encoding) (n : nat) : nat :=
  match padChar enc with
  | None => (n / 3 * 4 + (n mod 3 * 8 + 5) / 6)%nat
  | Some _ => ((n + 2) / 3 * 4)%nat
  end.

End base64.

(** ** crypto/rand *)
Module rand.

(** What a call comes to: it returns a value, or the runtime ends the
    process with [fatal].  After [Fatal] nothing is returned to any caller;
    no deferred call and no [recover] runs. *)
Inductive outcome (A : Type) : Type :=
| Returns (a : A)
| Fatal (cause : error).

Arguments Returns {A} _.
Arguments Fatal {A} _.

(** The reader behind [rand.Reader], as a state of type [S] and one
    operation: [draw s n] is a full read of [n] bytes ([io.ReadFull]) and
    answers with the next state, the bytes supplied and the error.
    [draw_full] is the contract of a full read: a nil error means that all
    [n] bytes were supplied. *)
Class Source (S : Type) : Type := {
  draw : S -> nat -> S * (list byte * option error);
  draw_full : forall s n s' data,
    draw s n = (s', (data, None)) -> List.length data = n
}.

(** [rand.Read(b)] of Go 1.24, the version that go.mod requires.  When the
    reader fails, [Read] calls [fatal] with the reader's error and the
    process ends.  Otherwise the bytes supplied overwrite [b] and the error
    is nil: [Read] never returns an error.  The result carries the slice
    after the call and the error; the byte count is dropped, as every
    caller here ignores it. *)
Definition Read {S : Type} `{Source S} (s : S) (b : list byte)
  : outcome (S * (list byte * option error)) :=
  let '(s', (data, err)) := draw s (List.length b) in
  match err with
  | Some e => Fatal e
  | None =>
      Returns
        (s', (firstn (List.length b) data ++ skipn (List.length data) b, None))
  end.

End rand.
Export rand (outcome, Returns, Fatal).

(** ** Package crypto *)
Module crypto.

Local Open Scope string_scope.

(** [func GenerateRefreshToken() (string, error)], with the random source
    threaded through. *)
Definition GenerateRefreshToken {S : Type} `{rand.Source S} (s : S)
  : outcome (S * (string * option error)) :=
  let b := repeat x00 64 in
  match rand.Read s b with
  | Fatal cause => Fatal cause
  | Returns (s', (b', err)) =>
      match err with
      | Some e => Returns (s', ("", Some e))
      | None =>
          Returns (s', (base64.EncodeToString base64.RawURLEncoding b', None))
      end
  end.

(** [func HashToken(token string) string]. *)
Definition HashToken (token : string) : string :=
  let h := sha256.Sum256 (bytes_of_string token) in
  hex.EncodeToString h.

End crypto.

(** ** encoding/json, as far as a JWT header needs it *)
Module json.

Local Open Scope string_scope.

Definition dquote : string := String "034"%char "".

(** A JSON string literal, for text that needs no escaping. *)
Definition quote (s : string) : string := dquote ++ s ++ dquote.

Fixpoint insert_sorted (kv : string * string) (m : list (string * string))
  : list (string * string) :=
  match m with
  | [] => [kv]
  | kv' :: m' =>
      if String.leb (fst kv) (fst kv') then kv :: m
      else kv' :: insert_sorted kv m'
  end.

Definition sort_keys (m : list (string * string)) : list (string * string) :=
  fold_right insert_sorted [] m.

(** [json.Marshal] of a [map[string]interface{}] whose values are
    strings: an object with the keys in sorted order. *)
Definition Marshal_map (m : list (string * string)) : list byte :=
  bytes_of_string
    ("{" ++ String.concat ","
              (map (fun kv => quote (fst kv) ++ ":" ++ quote (snd kv))
                   (sort_keys m))
         ++ "}").

End json.

(** ** github.com/golang-jwt/jwt/v5 *)
Module jwtlib.

Local Open Scope string_scope.

(** [type SigningMethod interface]: [Alg()] and [Sign(signingString, key)]
    ([Verify] plays no part in signing). *)
Record SigningMethod : Type := mkSigningMethod {
  Alg : string;
  Sign : string -> list byte -> list byte * option error
}.

(** [SigningMethodHS256 = &SigningMethodHMAC{"HS256", crypto.SHA256}];
    [Sign] with a [[]byte] key is the HMAC of the signing string. *)
Definition SigningMethodHS256 : SigningMethod :=
  mkSigningMethod "HS256"
    (fun signingString key =>
       (hmac.SumSHA256 key (bytes_of_string signingString), None)).

(** [SigningMethodNone]: [Sign] refuses every key but the package's magic
    constant, which a [[]byte] never is. *)
Definition SigningMethodNone : SigningMethod :=
  mkSigningMethod "none"
    (fun _ _ => ([], Some (errorString "'none' signature type is not allowed"))).

Section WithClaims.

(** [jwt.Claims] is an interface; [json.Marshal] of a claims value
    yields bytes or an error. *)
Variable Claims : Type.
Variable Marshal_claims : Claims -> list byte * option error.

Record Token : Type := mkToken {
  Header : list (string * string);
  TokenClaims : Claims;
  Method : SigningMethod
}.

Definition NewWithClaims (method : SigningMethod) (claims : Claims) : Token :=
  mkToken [("typ", "JWT"); ("alg", Alg method)] claims method.

Definition EncodeSegment (seg : list byte) : string :=
  base64.EncodeToString base64.RawURLEncoding seg.

Definition SigningString (t : Token) : string * option error :=
  let h := json.Marshal_map (Header t) in
  let '(c, err) := Marshal_claims (TokenClaims t) in
  match err with
  | Some e => ("", Some e)
  | None => (EncodeSegment h ++ "." ++ EncodeSegment c, None)
  end.

Definition SignedString (t : Token) (key : list byte) : string * option error :=
  let '(sstr, err) := SigningString t in
  match err with
  | Some e => ("", Some e)
  | None =>
      let '(sig, err) := Sign (Method t) sstr key in
      match err with
      | Some e => ("", Some e)
      | None => (sstr ++ "." ++ EncodeSegment sig, None)
      end
  end.

End WithClaims.

Arguments Header {Claims} _.
Arguments TokenClaims {Claims} _.
Arguments Method {Claims} _.
Arguments NewWithClaims {Claims} _ _.
Arguments SigningString {Claims} _ _.
Arguments SignedString {Claims} _ _ _.

End jwtlib.

(** ** Package jwt *)
Module jwt.

Section WithClaims.

Variable Claims : Type.
Variable Marshal_claims : Claims -> list byte * option error.

(** [func GenerateToken(secret []byte, claims jwt.Claims) (string, error)];
    [GenerateToken_t] is its local [t]. *)
Definition GenerateToken_t (claims : Claims) : jwtlib.Token Claims :=
  jwtlib.NewWithClaims jwtlib.SigningMethodHS256 claims.

Definition GenerateToken (secret : list byte) (claims : Claims)
  : string * option error :=
  let t := GenerateToken_t claims in
  jwtlib.SignedString Marshal_claims t secret.

End WithClaims.

Arguments GenerateToken_t {Claims} _.
Arguments GenerateToken {Claims} _ _ _.

End jwt.

(** ** Package logx1 *)
Module logx1.

(** A [*zap.Logger] is [None] when nil; otherwise what matters of the
    logger here is the error its [Sync] method returns. *)
Record Logger : Type := mkLogger {
  Logger_Sync : option error
}.

(** [func Sync(l *zap.Logger) error]. *)
Definition Sync (l : option Logger) : option error :=
  match l with
  | None => None
  | Some lg =>
      let err := Logger_Sync lg in
      match err with
      | None => None
      | Some _ =>
          if errors.Is err syscall.EINVAL || errors.Is err syscall.ENOTTY
          then None
          else
            match errors.As_PathError err with
            | Some perr =>
                if errors.Is (Some perr) syscall.EINVAL
                   || errors.Is (Some perr) syscall.ENOTTY
                then None
                else err
            | None => err
            end
      end
  end.

End logx1.

(** ** Strings as the [range] clause sees them *)
Module utf8.

Local Open Scope Z_scope.

Definition runeError : Z := 0xFFFD.

(** A continuation byte: [locb <= c && c <= hicb]. *)
Definition is_cont (c : byte) : bool :=
  (0x80 <=? byte_val c) && (byte_val c <=? 0xBF).

(** The runtime's [decoderune] at the front of [s]: the rune and the number
    of bytes it takes.  A lead byte whose continuation bytes are missing or
    wrong, an overlong form, a surrogate and a value above [maxRune] all
    decode as [runeError] of width one. *)
Definition decoderune (s : list byte) : Z * nat :=
  match s with
  | [] => (runeError, 1%nat)
  | c0 :: s1 =>
      let b0 := byte_val c0 in
      if (0xC0 <=? b0) && (b0 <? 0xE0) then
        match s1 with
        | c1 :: _ =>
            if is_cont c1 then
              let r := Z.lor (Z.shiftl (Z.land b0 0x1F) 6)
                             (Z.land (byte_val c1) 0x3F) in
              if 0x7F <? r then (r, 2%nat) else (runeError, 1%nat)
            else (runeError, 1%nat)
        | [] => (runeError, 1%nat)
        end
      else if (0xE0 <=? b0) && (b0 <? 0xF0) then
        match s1 with
        | c1 :: c2 :: _ =>
            if is_cont c1 && is_cont c2 then
              let r := Z.lor (Z.lor (Z.shiftl (Z.land b0 0x0F) 12)
                                    (Z.shiftl (Z.land (byte_val c1) 0x3F) 6))
                             (Z.land (byte_val c2) 0x3F) in
              if (0x7FF <? r) && negb ((0xD800 <=? r) && (r <=? 0xDFFF))
              then (r, 3%nat) else (runeError, 1%nat)
            else (runeError, 1%nat)
        | _ => (runeError, 1%nat)
        end
      else if (0xF0 <=? b0) && (b0 <? 0xF8) then
        match s1 with
        | c1 :: c2 :: c3 :: _ =>
            if is_cont c1 && is_cont c2 && is_cont c3 then
              let r := Z.lor (Z.lor (Z.lor
                         (Z.shiftl (Z.land b0 0x07) 18)
                         (Z.shiftl (Z.land (byte_val c1) 0x3F) 12))
                         (Z.shiftl (Z.land (byte_val c2) 0x3F) 6))
                         (Z.land (byte_val c3) 0x3F) in
              if (0xFFFF <? r) && (r <=? 0x10FFFF)
              then (r, 4%nat) else (runeError, 1%nat)
            else (runeError, 1%nat)
        | _ => (runeError, 1%nat)
        end
      else (runeError, 1%nat)
  end.

(** One step of [for i, r := range s]: a byte below [RuneSelf] is its own
    rune, anything else goes through [decoderune]. *)
Definition next_rune (s : list byte) : Z * nat :=
  match s with
  | [] => (runeError, 1%nat)
  | c :: _ => if byte_val c <? 0x80 then (byte_val c, 1%nat) else decoderune s
  end.

(** The pairs [(i, r)] that [range] yields over the bytes [s], which start
    at index [i]; [skip] bytes at the front belong to the rune before. *)
Fixpoint range_from (s : list byte) (i skip : nat) : list (nat * Z) :=
  match s with
  | [] => []
  | _ :: rest =>
      match skip with
      | S k => range_from rest (S i) k
      | O =>
          let '(r, w) := next_rune s in
          (i, r) :: range_from rest (S i) (w - 1)
      end
  end.

Definition range (s : list byte) : list (nat * Z) := range_from s 0 0.

End utf8.

(** ** Package logx1: presets *)
Module logx1_preset.

Local Open Scope Z_scope.

(** [b[i] = c] on a slice; the index is in range at every use. *)
Fixpoint store (b : list byte) (i : nat) (c : byte) : list byte :=
  match b, i with
  | [], _ => []
  | _ :: t, O => c :: t
  | x :: t, S j => x :: store t j c
  end.

(** The loop body of [normalized]: [c := s[i]], downcased when it is an
    ASCII capital, stored into [b[i]]. *)
Definition normalized_body (s : list byte) (b : list byte) (ir : nat * Z)
  : list byte :=
  let i := fst ir in
  let c := nth i s x00 in
  let c :=
    if (0x41 <=? byte_val c) && (byte_val c <=? 0x5A)
    then uint8 (byte_val c - 0x41 + 0x61)
    else c in
  store b i c.

(** [func normalized(s string) string]. *)
Definition normalized (s : string) : string :=
  let src := bytes_of_string s in
  let b := repeat x00 (List.length src) in
  string_of_bytes (fold_left (normalized_body src) (utf8.range src) b).

Section Presets.

(** The results of [zap.NewProduction()] and [zap.NewDevelopment()]. *)
Variable R : Type.
Variable NewProduction NewDevelopment : R.

(** [func New(mode string)], which returns a logger and an error. *)
Definition New (mode : string) : R :=
  let m := normalized mode in
  if String.eqb m "prod" || String.eqb m "production"
  then NewProduction
  else NewDevelopment.

End Presets.

Arguments New {R} _ _ _.

End logx1_preset.

(** ** context *)
Module context.

(** Context keys: the unexported [logx1.ctxKey], or a key of some other
    package. *)
Inductive key : Type :=
| logx1_ctxKey
| foreign (name : string).

Definition key_eqb (k k' : key) : bool :=
  match k, k' with
  | logx1_ctxKey, logx1_ctxKey => true
  | foreign a, foreign b => String.eqb a b
  | _, _ => false
  end.

Section Values.

(** The loggers a [*zap.Logger] can point to. *)
Variable L : Type.

(** A non-nil [any]: a [*zap.Logger], which may be a nil pointer, or a value
    of another dynamic type. *)
Inductive any : Type :=
| AnyLogger (l : option L)
| AnyOther (v : string).

(** A context: [Background()], a [valueCtx] made by [WithValue], or a
    context derived by [WithCancel], [WithDeadline] or [WithTimeout], which
    hands [Value] on to its parent. *)
Inductive Context : Type :=
| Background
| WithValue (parent : Context) (k : key) (v : any)
| Derived (parent : Context).

(** [ctx.Value(k)]; [None] is the nil interface. *)
Fixpoint Value (ctx : Context) (k : key) : option any :=
  match ctx with
  | Background => None
  | WithValue parent k' v => if key_eqb k' k then Some v else Value parent k
  | Derived parent => Value parent k
  end.

End Values.

Arguments AnyLogger {L} _.
Arguments AnyOther {L} _.
Arguments Background {L}.
Arguments WithValue {L} _ _ _.
Arguments Derived {L} _.
Arguments Value {L} _ _.

End context.

(** ** github.com/daydev-org/zap: fields *)
Module zapfield.

(** [zap.String(key, val)]. *)
Record Field : Type := String_ {
  Key : string;
  Value : string
}.

End zapfield.

(** ** Package logx1: context helpers *)
Module logx1_context.

Section Loggers.

(** The loggers, the global logger [zap.L()] and the method [With] of a
    logger. *)
Variable L : Type.
Variable global : L.
Variable With : L -> list zapfield.Field -> L.

(** [func WithContext(ctx context.Context, logger *zap.Logger)
    context.Context]. *)
Definition WithContext (ctx : option (context.Context L)) (logger : option L)
  : context.Context L :=
  let ctx :=
    match ctx with
    | None => context.Background
    | Some c => c
    end in
  context.WithValue ctx context.logx1_ctxKey (context.AnyLogger logger).

(** [func FromContext(ctx context.Context) *zap.Logger]. *)
Definition FromContext (ctx : option (context.Context L)) : L :=
  match ctx with
  | Some c =>
      match context.Value c context.logx1_ctxKey with
      | Some (context.AnyLogger (Some logger)) => logger
      | _ => global
      end
  | None => global
  end.

(** [func AttachRequest(ctx context.Context, reqID string, clientIP string)
    context.Context]. *)
Definition AttachRequest (ctx : option (context.Context L))
  (reqID clientIP : string) : context.Context L :=
  let l := FromContext ctx in
  let l :=
    if negb (String.eqb reqID "")
    then With l [zapfield.String_ "request_id" reqID]
    else l in
  let l :=
    if negb (String.eqb clientIP "")
    then With l [zapfield.String_ "client_ip" clientIP]
    else l in
  WithContext ctx (Some l).

End Loggers.

Arguments WithContext {L} _ _.
Arguments FromContext {L} _ _.
Arguments AttachRequest {L} _ _ _ _ _.

End logx1_context.

(** ** time, as far as [Unix], [Nanosecond] and [Add] go *)
Module time.

Local Open Scope Z_scope.

(** A [time.Time] through the two values its methods [Unix()] and
    [Nanosecond()] report: seconds since the Unix epoch and the nanosecond
    within the second.  The location and the monotonic reading enter
    neither. *)
Record Time : Type := mkTime {
  Unix : Z;
  Nanosecond : Z
}.

(** [t.Add(d)] for a [Duration] of [d] nanoseconds.  Go's [/] and [%]
    truncate towards zero.  The seconds are added without the saturation
    that [addSec] applies when an [int64] overflows. *)
Definition Add (t : Time) (d : Z) : Time :=
  let dsec := Z.quot d 1000000000 in
  let nsec := Nanosecond t + Z.rem d 1000000000 in
  if 1000000000 <=? nsec then mkTime (Unix t + (dsec + 1)) (nsec - 1000000000)
  else if nsec <? 0 then mkTime (Unix t + (dsec - 1)) (nsec + 1000000000)
  else mkTime (Unix t + dsec) nsec.

End time.

(** ** Package date *)
Module date.

(** [func NowUnix() int64], at the clock reading [now]. *)
Definition NowUnix (now : time.Time) : Z := time.Unix now.

(** [func AddTime(delta time.Duration) time.Time], at the clock reading
    [now]. *)
Definition AddTime (now : time.Time) (delta : Z) : time.Time :=
  time.Add now delta.

End date.

(** * Specification-level definitions *)

Local Open Scope string_scope.

(** ** Character classes *)

Definition in_range (lo hi c : ascii) : bool :=
  ((nat_of_ascii lo <=? nat_of_ascii c) && (nat_of_ascii c <=? nat_of_ascii hi))%nat.

(** [[0-9a-f]] *)
Definition is_lower_hex (c : ascii) : bool :=
  in_range "0" "9" c || in_range "a" "f" c.

(** [[A-Za-z0-9_-]] *)
Definition is_base64url (c : ascii) : bool :=
  in_range "A" "Z" c || in_range "a" "z" c || in_range "0" "9" c
  || Ascii.eqb c "_" || Ascii.eqb c "-".

Fixpoint string_forall (p : ascii -> bool) (s : string) : bool :=
  match s with
  | EmptyString => true
  | String c s' => p c && string_forall p s'
  end.

(** ** Base 64 with the URL-safe alphabet, after RFC 4648

    The input is read as a stream of bits, most significant bit of each byte
    first.  The stream is cut into groups of six bits; a last group that is
    short is filled with zero bits on the right.  Each group, read as a
    number, selects one character of the alphabet.  Without padding nothing
    else is written. *)

Definition bit (b : byte) (i : Z) : bool := Z.testbit (byte_val b) i.

Definition bits_of_byte (b : byte) : list bool :=
  [bit b 7; bit b 6; bit b 5; bit b 4; bit b 3; bit b 2; bit b 1; bit b 0].

Definition bits_of_bytes (src : list byte) : list bool :=
  flat_map bits_of_byte src.

Definition value_of_bits (bs : list bool) : Z :=
  fold_left (fun acc (b : bool) => 2 * acc + Z.b2z b) bs 0.

Fixpoint sextets_of_bits (bs : list bool) : list Z :=
  match bs with
  | [] => []
  | b5 :: b4 :: b3 :: b2 :: b1 :: b0 :: rest =>
      value_of_bits [b5; b4; b3; b2; b1; b0] :: sextets_of_bits rest
  | _ => [value_of_bits (firstn 6 (bs ++ repeat false 6))]
  end.

Definition rfc4648_base64url (src : list byte) : string :=
  string_of_list_ascii
    (map (index base64.encodeURL) (sextets_of_bits (bits_of_bytes src))).

(** ** Enumerations used for counting *)

(** Every byte value, in order. *)
Definition all_bytes : list byte :=
  map (fun n => uint8 (Z.of_nat n)) (seq 0 256).

(** All byte strings of length [n] over an alphabet. *)
Fixpoint words (alphabet : list byte) (n : nat) : list (list byte) :=
  match n with
  | O => [[]]
  | S n' => flat_map (fun b => map (cons b) (words alphabet n')) alphabet
  end.

(** ** Two concrete readers

    [counter_source] supplies consecutive byte values and never fails;
    [failing_source] is a reader whose read supplies nothing and returns an
    error, as a replaced [rand.Reader] or a broken system source does. *)

Definition counter_draw (s n : nat) : nat * (list byte * option error) :=
  ((s + n)%nat, (map (fun i => uint8 (Z.of_nat i)) (seq s n), None)).

#[global] Instance counter_source : rand.Source nat.
Proof.
  refine {| rand.draw := counter_draw |}.
  unfold counter_draw. intros s n s' data E. inversion E; subst.
  rewrite length_map. apply length_seq.
Defined.

Definition EntropyUnavailable : error := errorString "entropy unavailable".

Definition failing_draw (s : unit) (n : nat) : unit * (list byte * option error) :=
  (s, ([], Some EntropyUnavailable)).

#[global] Instance failing_source : rand.Source unit.
Proof.
  refine {| rand.draw := failing_draw |}.
  unfold failing_draw. intros s n s' data E. inversion E.
Defined.

(** The token of [counter_source] started at 0. *)
Definition counter_token : string :=
  "AAECAwQFBgcICQoLDA0ODxAREhMUFRYXGBkaGxwdHh8gISIjJCUmJygpKissLS4vMDEyMzQ1Njc4OTo7PD0-Pw".

(** ** A claims value for examples *)

Definition example_payload : string :=
  "{" ++ json.quote "sub" ++ ":" ++ json.quote "1234567890" ++ ","
      ++ json.quote "name" ++ ":" ++ json.quote "John Doe" ++ ","
      ++ json.quote "iat" ++ ":1516239022}".

(** ** Error trees *)

(** [wraps err t]: the error tree of [err] holds the errno [t], either as
    [err] itself or below it through [Unwrap] (of an [*os.PathError], of a
    [%w] wrapper, or of a joined error). *)
Inductive wraps : error -> syscall.Errno -> Prop :=
| wraps_self (t : syscall.Errno) :
    wraps (ErrnoError t) t
| wraps_PathError (op path : string) (e : error) (t : syscall.Errno) :
    wraps e t -> wraps (PathError op path (Some e)) t
| wraps_wrapError (msg : string) (e : error) (t : syscall.Errno) :
    wraps e t -> wraps (wrapError msg (Some e)) t
| wraps_joinError (errs : list error) (e : error) (t : syscall.Errno) :
    In e errs -> wraps e t -> wraps (joinError errs) t.

(** The sync errors that [logx1.Sync] filters out. *)
Definition benign (e : error) : Prop :=
  wraps e syscall.EINVAL \/ wraps e syscall.ENOTTY.

(** The error that [l.Sync()] returns, nil for a nil logger. *)
Definition underlying (l : option logx1.Logger) : option error :=
  match l with
  | None => None
  | Some lg => logx1.Logger_Sync lg
  end.

(** Induction on error trees, through the option and the list. *)
Section error_induction.

Variable P : error -> Prop.
Hypothesis HErrno : forall e, P (ErrnoError e).
Hypothesis HString : forall s, P (errorString s).
Hypothesis HPathNil : forall op path, P (PathError op path None).
Hypothesis HPath : forall op path e, P e -> P (PathError op path (Some e)).
Hypothesis HWrapNil : forall msg, P (wrapError msg None).
Hypothesis HWrap : forall msg e, P e -> P (wrapError msg (Some e)).
Hypothesis HJoin : forall errs, Forall P errs -> P (joinError errs).

Fixpoint error_ind' (e : error) : P e :=
  match e with
  | ErrnoError n => HErrno n
  | errorString s => HString s
  | PathError op path None => HPathNil op path
  | PathError op path (Some e') => HPath op path e' (error_ind' e')
  | wrapError msg None => HWrapNil msg
  | wrapError msg (Some e') => HWrap msg e' (error_ind' e')
  | joinError errs =>
      HJoin errs
        ((fix all (l : list error) : Forall P l :=
            match l with
            | [] => Forall_nil P
            | x :: l' => Forall_cons x (error_ind' x) (all l')
            end) errs)
  end.

End error_induction.

(** ** ASCII case folding *)

(** The byte that the loop of [normalized] writes for the byte [c]. *)
Definition downcase (c : byte) : byte :=
  if ((0x41 <=? byte_val c) && (byte_val c <=? 0x5A))%Z
  then uint8 (byte_val c - 0x41 + 0x61)
  else c.

Definition is_ascii (c : byte) : bool := (byte_val c <? 0x80)%Z.

Definition is_upper (c : byte) : bool :=
  ((0x41 <=? byte_val c) && (byte_val c <=? 0x5A))%Z.

(** Case folding byte by byte. *)
Definition ascii_lower (s : string) : string :=
  string_of_bytes (map downcase (bytes_of_string s)).

(** What [normalized] leaves in its buffer, read rune by rune: the first
    byte of a rune is downcased, the [skip] bytes after it stay zero. *)
Fixpoint downcase_starts (s : list byte) (skip : nat) : list byte :=
  match s with
  | [] => []
  | c :: rest =>
      match skip with
      | S k => x00 :: downcase_starts rest k
      | O => downcase c :: downcase_starts rest (snd (utf8.next_rune s) - 1)
      end
  end.

(** A byte of plain text: ASCII and not zero. *)
Definition is_plain (c : byte) : bool :=
  is_ascii c && negb (Byte.eqb c x00).

(** ** Splitting at a separator *)

(** The segments of [s] between occurrences of [sep], as [strings.Split]
    gives them for a one-byte separator. *)
Fixpoint split_on (sep : ascii) (s : string) : list string :=
  match s with
  | EmptyString => [EmptyString]
  | String c s' =>
      if Ascii.eqb c sep then EmptyString :: split_on sep s'
      else
        match split_on sep s' with
        | seg :: segs => String c seg :: segs
        | [] => [String c EmptyString]
        end
  end.

(** The first segment of every token of [jwt.GenerateToken]: the base64url
    form of the header object with [alg] HS256 and [typ] JWT. *)
Definition HS256_header_segment : string :=
  "eyJhbGciOiJIUzI1NiIsInR5cCI6IkpXVCJ9".

(** ** Reading base64url back, after RFC 4648

    Each character stands for the six bits of its position in the
    alphabet; the bits of all characters, in order, are cut into bytes, and
    the bits left over at the end (fewer than eight) are dropped. *)

Fixpoint position_in (alphabet : string) (c : ascii) (i : Z) : Z :=
  match alphabet with
  | EmptyString => 0%Z
  | String a rest => if Ascii.eqb a c then i else position_in rest c (i + 1)%Z
  end.

Definition char_bits (c : ascii) : list bool :=
  let v := position_in base64.encodeURL c 0 in
  [Z.testbit v 5; Z.testbit v 4; Z.testbit v 3;
   Z.testbit v 2; Z.testbit v 1; Z.testbit v 0].

Definition byte_of_bits (bs : list bool) : byte := uint8 (value_of_bits bs).

Fixpoint bytes_of_bits (bs : list bool) : list byte :=
  match bs with
  | b7 :: b6 :: b5 :: b4 :: b3 :: b2 :: b1 :: b0 :: rest =>
      byte_of_bits [b7; b6; b5; b4; b3; b2; b1; b0] :: bytes_of_bits rest
  | _ => []
  end.

Definition rfc4648_base64url_decode (s : string) : list byte :=
  bytes_of_bits (flat_map char_bits (list_ascii_of_string s)).

(** ** Clock readings and durations *)

(** A clock reading as [time.Now()] returns it: the nanosecond is within
    the second and the seconds are far from the limits of [int64], so that
    adding a [Duration] cannot saturate. *)
Definition clock_reading (now : time.Time) : Prop :=
  (0 <= time.Nanosecond now < 1000000000
   /\ - 2 ^ 62 <= time.Unix now <= 2 ^ 62)%Z.

(** A [time.Duration]: an [int64] count of nanoseconds. *)
Definition is_duration (d : Z) : Prop := (- 2 ^ 63 <= d < 2 ^ 63)%Z.


(** ** SHA-256 after FIPS 180-4

    The secure hash standard, written down from its text and not from the
    Go library.  The constants are derived from the primes, as sections
    4.2.2 and 5.3.3 define them.  Words are numbers below 2^32 and their
    addition is modulo 2^32 (section 3.2).  The message is padded as in
    section 5.1.1, parsed as in 5.2.1 and hashed as in 6.2.2.  The standard
    counts bits; a message here is a sequence of whole bytes. *)
Module fips180.

Local Open Scope list_scope.
Local Open Scope Z_scope.

Definition is_prime (n : nat) : bool :=
  (2 <=? n)%nat
  && forallb (fun d => negb (n mod d =? 0)%nat) (seq 2 (n - 2)).

(** The first [count] primes, for [count] up to 64: the 64th is 311. *)
Definition primes (count : nat) : list Z :=
  map Z.of_nat (firstn count (filter is_prime (seq 0 312))).

(** The integer part of the cube root of [n], found one bit at a time
    from bit [bits - 1] down. *)
Fixpoint cube_root_from (bits : nat) (n r : Z) : Z :=
  match bits with
  | O => r
  | S b =>
      let r' := r + 2 ^ Z.of_nat b in
      cube_root_from b n (if r' ^ 3 <=? n then r' else r)
  end.

Definition cube_root (n : Z) : Z := cube_root_from 40 n 0.

(** Section 4.2.2: the first 32 bits of the fractional parts of the cube
    roots of the first 64 primes.  The integer part of the root of
    [p * 2^96] is the root of [p] moved up by 32 bits. *)
Definition K : list Z :=
  map (fun p => cube_root (p * 2 ^ 96) mod 2 ^ 32) (primes 64).

(** Section 5.3.3: the same of the square roots of the first 8 primes. *)
Definition H0 : list Z :=
  map (fun p => Z.sqrt (p * 2 ^ 64) mod 2 ^ 32) (primes 8).

(** Section 3.2: operations on 32-bit words. *)
Definition ROTR (n x : Z) : Z :=
  Z.lor (Z.shiftr x n) (Z.shiftl x (32 - n) mod 2 ^ 32).
Definition SHR (n x : Z) : Z := Z.shiftr x n.
Definition complement (x : Z) : Z := Z.lxor x (Z.ones 32).

(** Section 4.1.2: the six logical functions. *)
Definition Ch (x y z : Z) : Z :=
  Z.lxor (Z.land x y) (Z.land (complement x) z).
Definition Maj (x y z : Z) : Z :=
  Z.lxor (Z.lxor (Z.land x y) (Z.land x z)) (Z.land y z).
Definition Sigma0 (x : Z) : Z :=
  Z.lxor (Z.lxor (ROTR 2 x) (ROTR 13 x)) (ROTR 22 x).
Definition Sigma1 (x : Z) : Z :=
  Z.lxor (Z.lxor (ROTR 6 x) (ROTR 11 x)) (ROTR 25 x).
Definition sigma0 (x : Z) : Z :=
  Z.lxor (Z.lxor (ROTR 7 x) (ROTR 18 x)) (SHR 3 x).
Definition sigma1 (x : Z) : Z :=
  Z.lxor (Z.lxor (ROTR 17 x) (ROTR 19 x)) (SHR 10 x).

(** Section 6.2.2, step 1: the words [W_0 .. W_(t-1)] of the message
    schedule for the sixteen words [M] of a block. *)
Fixpoint schedule_upto (t : nat) (M : list Z) : list Z :=
  match t with
  | O => []
  | S t' =>
      let W := schedule_upto t' M in
      W ++ [ if (t' <? 16)%nat then nth t' M 0
             else (sigma1 (nth (t' - 2) W 0) + nth (t' - 7) W 0
                   + sigma0 (nth (t' - 15) W 0) + nth (t' - 16) W 0)
                  mod 2 ^ 32 ]
  end.

(** The working variables [a .. h]. *)
Definition vars : Type := (Z * Z * Z * Z * Z * Z * Z * Z)%type.

(** Step 3, for one [t]. *)
Definition step (W : list Z) (v : vars) (t : nat) : vars :=
  let '(a, b, c, d, e, f, g, h) := v in
  let T1 := (h + Sigma1 e + Ch e f g + nth t K 0 + nth t W 0) mod 2 ^ 32 in
  let T2 := (Sigma0 a + Maj a b c) mod 2 ^ 32 in
  ((T1 + T2) mod 2 ^ 32, a, b, c, (d + T1) mod 2 ^ 32, e, f, g).

(** Steps 1 to 4: the next hash value from the hash value [H] and the
    block [M]. *)
Definition compress (H M : list Z) : list Z :=
  let W := schedule_upto 64 M in
  let v := (nth 0 H 0, nth 1 H 0, nth 2 H 0, nth 3 H 0,
            nth 4 H 0, nth 5 H 0, nth 6 H 0, nth 7 H 0) in
  let '(a, b, c, d, e, f, g, h) := fold_left (step W) (seq 0 64) v in
  map (fun '(x, y) => (x + y) mod 2 ^ 32)
      (combine [a; b; c; d; e; f; g; h] H).

(** A number as [n] bytes, most significant first, and back. *)
Fixpoint big_endian (n : nat) (v : Z) : list byte :=
  match n with
  | O => []
  | S n' => big_endian n' (v / 256) ++ [uint8 v]
  end.

Definition number_of (bs : list byte) : Z :=
  fold_left (fun acc b => 256 * acc + byte_val b) bs 0.

(** The [i]-th run of [n] elements of [l], and [l] cut into such runs. *)
Definition piece {A : Type} (n : nat) (l : list A) (i : nat) : list A :=
  firstn n (skipn (i * n) l).

Definition pieces {A : Type} (n : nat) (l : list A) : list (list A) :=
  map (piece n l) (seq 0 (List.length l / n)).

(** Section 5.1.1: what is appended to a message of [n] bytes, that is of
    [l = 8 * n] bits: the bit 1, then [k] zero bits with [k] the least
    solution of [l + 1 + k = 448 (mod 512)], then [l] as a 64-bit number.
    The bit 1 and the first seven zero bits make the byte 0x80. *)
Definition padding (n : nat) : list byte :=
  let l := 8 * Z.of_nat n in
  let k := (448 - (l + 1)) mod 512 in
  [x80] ++ repeat x00 (Z.to_nat ((k - 7) / 8)) ++ big_endian 8 (l mod 2 ^ 64).

(** Section 5.2.1: a block of 512 bits as sixteen 32-bit words. *)
Definition parse_block (block : list byte) : list Z :=
  map number_of (pieces 4 block).

(** Section 6.2: the message digest. *)
Definition SHA256 (M : list byte) : list byte :=
  let padded := M ++ padding (List.length M) in
  let H := fold_left (fun H block => compress H (parse_block block))
                     (pieces 64 padded) H0 in
  flat_map (big_endian 4) H.

End fips180.

(** The chaining value of the Go digest, read as the hash value
    [H_0 .. H_7] and as the working variables [a .. h] of the standard. *)
Definition words_of (s : sha256.hash8) : list Z :=
  [sha256.h0 s; sha256.h1 s; sha256.h2 s; sha256.h3 s;
   sha256.h4 s; sha256.h5 s; sha256.h6 s; sha256.h7 s].

Definition vars_of (s : sha256.hash8) : fips180.vars :=
  (sha256.h0 s, sha256.h1 s, sha256.h2 s, sha256.h3 s,
   sha256.h4 s, sha256.h5 s, sha256.h6 s, sha256.h7 s).

(** ** HMAC after RFC 2104

    [H(K xor opad, H(K xor ipad, text))] with [H] the hash of the standard
    above and a block of [B = 64] bytes: a key longer than [B] is hashed
    first; the key is filled with zero bytes up to [B]; [ipad] is the byte
    0x36 and [opad] the byte 0x5c, each repeated [B] times. *)
Module rfc2104.

Local Open Scope list_scope.
Local Open Scope Z_scope.

Definition B : nat := 64.

Definition xor_bytes (xs ys : list byte) : list byte :=
  map (fun '(x, y) => uint8 (Z.lxor (byte_val x) (byte_val y))) (combine xs ys).

Definition HMAC_SHA256 (K text : list byte) : list byte :=
  let K0 := if (List.length K <=? B)%nat then K else fips180.SHA256 K in
  let K0 := K0 ++ repeat x00 (B - List.length K0) in
  let ipad := repeat x36 B in
  let opad := repeat x5c B in
  fips180.SHA256 (xor_bytes K0 opad ++ fips180.SHA256 (xor_bytes K0 ipad ++ text)).

End rfc2104.

(** ** Hexadecimal digits

    A byte [v] as the two digits of [v] in base 16, with the lowercase
    letters [a] to [f] for ten to fifteen. *)
Definition hex_digit (d : Z) : ascii :=
  ascii_of_nat (Z.to_nat (if (d <? 10)%Z then 48 + d else 97 + (d - 10))%Z).

Fixpoint lower_hex (src : list byte) : string :=
  match src with
  | [] => EmptyString
  | v :: rest =>
      String (hex_digit (byte_val v / 16))
        (String (hex_digit (byte_val v mod 16)) (lower_hex rest))
  end.

(** * Test vectors for the library models *)

Example sha_abc :
  hex.EncodeToString (sha256.Sum256 (bytes_of_string "abc")) =
  "ba7816bf8f01cfea414140de5dae2223b00361a396177a9cb410ff61f20015ad".
Proof. vm_compute. reflexivity. Qed.

Example sha_two_blocks :
  hex.EncodeToString (sha256.Sum256 (bytes_of_string
    "abcdbcdecdefdefgefghfghighijhijkijkljklmklmnlmnomnopnopq")) =
  "248d6a61d20638b8e5c026930c3e6039a33ce45964ff2167f6ecedd419db06c1".
Proof. vm_compute. reflexivity. Qed.

Example b64_foobar :
  map (fun s => base64.EncodeToString base64.RawURLEncoding (bytes_of_string s))
      [""; "f"; "fo"; "foo"; "foob"; "fooba"; "foobar"] =
  [""; "Zg"; "Zm8"; "Zm9v"; "Zm9vYg"; "Zm9vYmE"; "Zm9vYmFy"].
Proof. vm_compute. reflexivity. Qed.

Example b64_foobar_padded :
  map (fun s => base64.EncodeToString base64.URLEncoding (bytes_of_string s))
      [""; "f"; "fo"; "foo"; "foob"; "fooba"; "foobar"] =
  [""; "Zg=="; "Zm8="; "Zm9v"; "Zm9vYg=="; "Zm9vYmE="; "Zm9vYmFy"].
Proof. vm_compute. reflexivity. Qed.

Example rfc4648_foobar :
  map (fun s => rfc4648_base64url (bytes_of_string s))
      [""; "f"; "fo"; "foo"; "foob"; "fooba"; "foobar"] =
  [""; "Zg"; "Zm8"; "Zm9v"; "Zm9vYg"; "Zm9vYmE"; "Zm9vYmFy"].
Proof. vm_compute. reflexivity. Qed.

Example hmac_rfc4231_2 :
  hex.EncodeToString (hmac.SumSHA256 (bytes_of_string "Jefe")
     (bytes_of_string "what do ya want for nothing?")) =
  "5bdcc146bf60754e6a042426089575c75a003f089d2739839dec58b964ec3843".
Proof. vm_compute. reflexivity. Qed.

Example json_header :
  string_of_bytes (json.Marshal_map [("typ", "JWT"); ("alg", "HS256")]) =
  "{" ++ json.quote "alg" ++ ":" ++ json.quote "HS256" ++ ","
      ++ json.quote "typ" ++ ":" ++ json.quote "JWT" ++ "}".
Proof. vm_compute. reflexivity. Qed.

Example jwt_example :
  jwt.GenerateToken (fun c : string => (bytes_of_string c, None))
    (bytes_of_string "your-256-bit-secret") example_payload =
  ("eyJhbGciOiJIUzI1NiIsInR5cCI6IkpXVCJ9."
   ++ "eyJzdWIiOiIxMjM0NTY3ODkwIiwibmFtZSI6IkpvaG4gRG9lIiwiaWF0IjoxNTE2MjM5MDIyfQ."
   ++ "SflKxwRJSMeKKF2QT4fwpMeJf36POk6yJV_adQssw5c", None).
Proof. vm_compute. reflexivity. Qed.

Example jwt_none_refused :
  jwtlib.SignedString (fun c : string => (bytes_of_string c, None))
    (jwtlib.NewWithClaims jwtlib.SigningMethodNone example_payload)
    (bytes_of_string "your-256-bit-secret")
  = ("", Some (errorString "'none' signature type is not allowed")).
Proof. vm_compute. reflexivity. Qed.

Example GenerateRefreshToken_counter :
  crypto.GenerateRefreshToken 0%nat = Returns (64%nat, (counter_token, None)).
Proof. vm_compute. reflexivity. Qed.

Example GenerateRefreshToken_failing :
  crypto.GenerateRefreshToken tt = Fatal EntropyUnavailable.
Proof. reflexivity. Qed.

Example Sync_path_einval :
  logx1.Sync (Some (logx1.mkLogger
    (Some (PathError "sync" "/dev/stdout" (Some (ErrnoError syscall.EINVAL))))))
  = None.
Proof. reflexivity. Qed.

Example Sync_joined_enotty :
  logx1.Sync (Some (logx1.mkLogger
    (Some (joinError
       [ PathError "sync" "/dev/stderr" (Some (ErrnoError syscall.ENOTTY));
         errorString "disk full" ]))))
  = None.
Proof. reflexivity. Qed.

Example Sync_real_error :
  logx1.Sync (Some (logx1.mkLogger
    (Some (PathError "sync" "/var/log/app.log" (Some (ErrnoError 5))))))
  = Some (PathError "sync" "/var/log/app.log" (Some (ErrnoError 5))).
Proof. reflexivity. Qed.

(** The constants of the standard, as derived: the primes, the exactness
    of the cube roots, and the first words of the two tables as the
    standard prints them. *)
Example fips180_primes :
  fips180.primes 64 =
  [2; 3; 5; 7; 11; 13; 17; 19; 23; 29; 31; 37; 41; 43; 47; 53;
   59; 61; 67; 71; 73; 79; 83; 89; 97; 101; 103; 107; 109; 113; 127; 131;
   137; 139; 149; 151; 157; 163; 167; 173; 179; 181; 191; 193; 197; 199;
   211; 223; 227; 229; 233; 239; 241; 251; 257; 263; 269; 271; 277; 281;
   283; 293; 307; 311]%Z.
Proof. vm_compute. reflexivity. Qed.

Example fips180_cube_roots :
  forallb
    (fun p =>
       let n := (p * 2 ^ 96)%Z in
       let r := fips180.cube_root n in
       (r ^ 3 <=? n)%Z && (n <? (r + 1) ^ 3)%Z)
    (fips180.primes 64) = true.
Proof. vm_compute. reflexivity. Qed.

Example fips180_K_first :
  firstn 2 fips180.K = [0x428a2f98; 0x71374491]%Z
  /\ nth 63 fips180.K 0%Z = 0xc67178f2%Z
  /\ List.length fips180.K = 64%nat.
Proof. vm_compute. repeat split. Qed.

Example fips180_H0 :
  lower_hex (flat_map (fips180.big_endian 4) fips180.H0) =
  "6a09e667bb67ae853c6ef372a54ff53a510e527f9b05688c1f83d9ab5be0cd19".
Proof. vm_compute. reflexivity. Qed.

Example fips180_abc :
  lower_hex (fips180.SHA256 (bytes_of_string "abc")) =
  "ba7816bf8f01cfea414140de5dae2223b00361a396177a9cb410ff61f20015ad".
Proof. vm_compute. reflexivity. Qed.

Example fips180_two_blocks :
  lower_hex (fips180.SHA256 (bytes_of_string
    "abcdbcdecdefdefgefghfghighijhijkijkljklmklmnlmnomnopnopq")) =
  "248d6a61d20638b8e5c026930c3e6039a33ce45964ff2167f6ecedd419db06c1".
Proof. vm_compute. reflexivity. Qed.

Example rfc2104_rfc4231_2 :
  lower_hex (rfc2104.HMAC_SHA256 (bytes_of_string "Jefe")
     (bytes_of_string "what do ya want for nothing?")) =
  "5bdcc146bf60754e6a042426089575c75a003f089d2739839dec58b964ec3843".
Proof. vm_compute. reflexivity. Qed.

(** A key longer than the block, test case 6 of RFC 4231. *)
Example rfc2104_rfc4231_6 :
  lower_hex (rfc2104.HMAC_SHA256 (repeat xaa 131)
     (bytes_of_string "Test Using Larger Than Block-Size Key - Hash Key First")) =
  "60e431591ee0b67f0d8a26aacbf5b77f8e0bc6213728c5140546040f0ee37f54".
Proof. vm_compute. reflexivity. Qed.

(** * Properties *)

Lemma all_bytes_complete (b : byte) : In b all_bytes.
Proof.
  unfold all_bytes. apply in_map_iff. exists (Byte.to_nat b). split.
  - destruct b; reflexivity.
  - apply in_seq. pose proof (Byte.to_nat_bounded b). lia.
Qed.

(** A property of two bytes that holds on every pair of the enumeration
    holds for all bytes. *)
Lemma forall_bytes2 (f : byte -> byte -> bool) :
  forallb (fun a => forallb (f a) all_bytes) all_bytes = true ->
  forall a b, f a b = true.
Proof.
  intros Hall a b. rewrite forallb_forall in Hall.
  specialize (Hall a (all_bytes_complete a)).
  rewrite forallb_forall in Hall. apply Hall, all_bytes_complete.
Qed.

Ltac by_bytes2 :=
  let a := fresh "a" in
  let b := fresh "b" in
  intros a b; apply Z.eqb_eq; revert a b;
  match goal with
  | |- forall a b, @?f a b = true => apply (forall_bytes2 f)
  end;
  vm_compute; reflexivity.


(** ** encoding/hex *)

Lemma hex_EncodeToString_length (src : list byte) :
  String.length (hex.EncodeToString src) = (2 * List.length src)%nat.
Proof.
  induction src as [|v rest IH]; simpl; [reflexivity|].
  rewrite IH. lia.
Qed.

Lemma hex_digits_lower (v : byte) :
  is_lower_hex (index hex.hextable (Z.shiftr (byte_val v) 4)) = true /\
  is_lower_hex (index hex.hextable (Z.land (byte_val v) 0x0f)) = true.
Proof. destruct v; vm_compute; split; reflexivity. Qed.

Lemma hex_EncodeToString_lower (src : list byte) :
  string_forall is_lower_hex (hex.EncodeToString src) = true.
Proof.
  induction src as [|v rest IH]; [reflexivity|].
  cbn [hex.EncodeToString string_forall].
  destruct (hex_digits_lower v) as [Hhi Hlo].
  rewrite Hhi, Hlo, IH. reflexivity.
Qed.

Lemma hex_decode_digits (v : byte) :
  hex.DecodeString
    (String (index hex.hextable (Z.shiftr (byte_val v) 4))
       (String (index hex.hextable (Z.land (byte_val v) 0x0f)) EmptyString))
  = Some [v].
Proof. destruct v; reflexivity. Qed.

Lemma hex_roundtrip (src : list byte) :
  hex.DecodeString (hex.EncodeToString src) = Some src.
Proof.
  induction src as [|v rest IH]; [reflexivity|].
  pose proof (hex_decode_digits v) as Hv.
  cbn [hex.EncodeToString hex.DecodeString] in *.
  rewrite IH.
  destruct (hex.fromHexChar _) as [a|]; [|discriminate Hv].
  destruct (hex.fromHexChar _) as [b|]; [|discriminate Hv].
  now inversion Hv.
Qed.

Lemma hex_EncodeToString_inj (x y : list byte) :
  hex.EncodeToString x = hex.EncodeToString y -> x = y.
Proof.
  intros E. apply (f_equal hex.DecodeString) in E.
  rewrite !hex_roundtrip in E. now inversion E.
Qed.

(** ** crypto/sha256 *)

Lemma BEPutUint32_length (v : Z) : List.length (sha256.BEPutUint32 v) = 4%nat.
Proof. reflexivity. Qed.

Lemma checkSum_length (d : sha256.digest) :
  List.length (sha256.checkSum d) = sha256.Size.
Proof.
  unfold sha256.checkSum. cbv zeta.
  repeat rewrite length_app. repeat rewrite BEPutUint32_length.
  reflexivity.
Qed.

Lemma Sum256_length (data : list byte) :
  List.length (sha256.Sum256 data) = 32%nat.
Proof. unfold sha256.Sum256. apply checkSum_length. Qed.

(** What [Write] leaves buffered is shorter than a chunk. *)
Lemma Write_buffer_short (d : sha256.digest) (p : list byte) :
  (List.length (sha256.x (sha256.Write d p)) < sha256.chunk)%nat.
Proof.
  unfold sha256.Write. cbn [sha256.x].
  rewrite length_skipn.
  set (n := List.length (sha256.x d ++ p)).
  unfold sha256.chunk.
  pose proof (Nat.div_mod_eq n 64). pose proof (Nat.mod_upper_bound n 64). lia.
Qed.

Lemma padlen_length (l : Z) :
  List.length (sha256.padlen l)
  = (Z.to_nat (if l mod 64 <? 56 then 56 - l mod 64 else 64 + 56 - l mod 64)%Z + 8)%nat.
Proof.
  unfold sha256.padlen. cbv zeta. rewrite length_app.
  cbn [List.length sha256.BEPutUint64]. rewrite repeat_length.
  pose proof (Z.mod_pos_bound l 64 ltac:(reflexivity)).
  destruct (l mod 64 <? 56)%Z eqn:Hlt;
    [apply Z.ltb_lt in Hlt | apply Z.ltb_ge in Hlt]; lia.
Qed.

(** The padding of [checkSum] completes the last chunk: after it nothing
    stays buffered, so the [d.nx != 0] panic of the library cannot fire. *)
Lemma finish_empties_buffer (data : list byte) :
  sha256.x (sha256.finish (sha256.Write sha256.Reset data)) = [].
Proof.
  unfold sha256.finish.
  set (d := sha256.Write sha256.Reset data).
  assert (Hx : List.length (sha256.x d) = (List.length data mod 64)%nat).
  { unfold d, sha256.Write, sha256.Reset. cbn [sha256.x app].
    rewrite length_skipn. unfold sha256.chunk.
    pose proof (Nat.div_mod_eq (List.length data) 64). lia. }
  assert (Hl : (sha256.len d mod 64)%Z = Z.of_nat (List.length data mod 64)).
  { unfold d, sha256.Write, sha256.Reset, uint64. cbn [sha256.len].
    rewrite Z.add_0_l.
    rewrite Z.mod_mod_divide by (exists (2 ^ 58)%Z; reflexivity).
    rewrite Nat2Z.inj_mod. reflexivity. }
  unfold sha256.Write at 1. cbn [sha256.x].
  apply skipn_all2.
  rewrite length_app, padlen_length, Hx, Hl.
  pose proof (Nat.mod_upper_bound (List.length data) 64 ltac:(discriminate)) as Hub.
  set (r := (List.length data mod 64)%nat) in *.
  unfold sha256.chunk.
  destruct (Z.of_nat r <? 56)%Z eqn:Hlt.
  - apply Z.ltb_lt in Hlt.
    replace (r + (Z.to_nat (56 - Z.of_nat r) + 8))%nat with 64%nat by lia.
    reflexivity.
  - apply Z.ltb_ge in Hlt.
    replace (r + (Z.to_nat (64 + 56 - Z.of_nat r) + 8))%nat with 128%nat by lia.
    reflexivity.
Qed.

(** ** crypto/sha256 against FIPS 180-4 *)

Section AgainstStandards.

Local Open Scope list_scope.
Local Open Scope Z_scope.

Lemma fold_left_ext_in {A B : Type} (f g : A -> B -> A) (l : list B) (a : A) :
  (forall a x, In x l -> f a x = g a x) ->
  fold_left f l a = fold_left g l a.
Proof.
  revert a. induction l as [|x l IH]; intros a H; cbn [fold_left];
    [reflexivity|].
  rewrite H by (left; reflexivity).
  apply IH. intros a' y Hy. apply H. right. exact Hy.
Qed.

Lemma fold_left_over_map {A B C : Type} (f : A -> B -> A) (g : C -> B)
    (l : list C) (a : A) :
  fold_left f (map g l) a = fold_left (fun a x => f a (g x)) l a.
Proof.
  revert a. induction l as [|x l IH]; intros a; cbn [map fold_left];
    [reflexivity | apply IH].
Qed.

Lemma map_seq_from {A : Type} (f : nat -> A) (m len start : nat) :
  map f (seq (m + start) len) = map (fun i => f (m + i)%nat) (seq start len).
Proof.
  revert start. induction len as [|len IH]; intros start; cbn [seq map];
    [reflexivity|].
  f_equal. rewrite <- IH. f_equal. f_equal. lia.
Qed.

Lemma piece_length {A : Type} (n : nat) (l : list A) (i : nat) :
  (i < List.length l / n)%nat -> List.length (fips180.piece n l i) = n.
Proof.
  intros Hi. unfold fips180.piece. rewrite length_firstn, length_skipn.
  destruct n as [|n]; [reflexivity|].
  pose proof (Nat.div_mod_eq (List.length l) (S n)). nia.
Qed.

Lemma pieces_length {A : Type} (n : nat) (l blk : list A) :
  In blk (fips180.pieces n l) -> List.length blk = n.
Proof.
  unfold fips180.pieces. intros H. apply in_map_iff in H.
  destruct H as [i [<- Hi]]. apply in_seq in Hi.
  apply piece_length. lia.
Qed.

Lemma piece_app_l {A : Type} (n : nat) (p q : list A) (i : nat) :
  (i * n + n <= List.length p)%nat ->
  fips180.piece n (p ++ q) i = fips180.piece n p i.
Proof.
  intros H. unfold fips180.piece.
  rewrite skipn_app, firstn_app, length_skipn.
  replace (i * n - List.length p)%nat with 0%nat by lia.
  replace (n - (List.length p - i * n))%nat with 0%nat by lia.
  cbn [skipn firstn]. apply app_nil_r.
Qed.

Lemma piece_app_r {A : Type} (n m : nat) (p q : list A) (i : nat) :
  List.length p = (m * n)%nat ->
  fips180.piece n (p ++ q) (m + i) = fips180.piece n q i.
Proof.
  intros H. unfold fips180.piece.
  rewrite skipn_app, H.
  rewrite (skipn_all2 p) by nia.
  replace ((m + i) * n - m * n)%nat with (i * n)%nat by nia.
  reflexivity.
Qed.

Lemma pieces_app {A : Type} (n m : nat) (p q : list A) :
  n <> 0%nat -> List.length p = (m * n)%nat ->
  fips180.pieces n (p ++ q) = fips180.pieces n p ++ fips180.pieces n q.
Proof.
  intros Hn H. unfold fips180.pieces.
  rewrite length_app, H, Nat.div_add_l, Nat.div_mul by exact Hn.
  rewrite seq_app, map_app. f_equal.
  - apply map_ext_in. intros i Hi. apply in_seq in Hi.
    apply piece_app_l. nia.
  - rewrite Nat.add_0_l.
    replace m with (m + 0)%nat at 1 by lia.
    rewrite map_seq_from. apply map_ext. intros i.
    apply piece_app_r. exact H.
Qed.

(** [blockGeneric] folds the body of its loop over the chunks of [p]. *)
Lemma block_pieces (s : sha256.hash8) (p : list byte) :
  sha256.block s p = fold_left sha256.block1 (fips180.pieces 64 p) s.
Proof.
  unfold sha256.block, fips180.pieces. rewrite fold_left_over_map.
  reflexivity.
Qed.

Lemma block_app (s : sha256.hash8) (p q : list byte) (m : nat) :
  List.length p = (m * 64)%nat ->
  sha256.block (sha256.block s p) q = sha256.block s (p ++ q).
Proof.
  intros H. rewrite !block_pieces.
  rewrite (pieces_app 64 m) by (discriminate || exact H).
  rewrite fold_left_app. reflexivity.
Qed.

(** Writing the message and then the padding hashes the padded message
    from the initial value: nothing is lost between the two writes. *)
Lemma finish_hashes_padded_message (data : list byte) :
  sha256.h (sha256.finish (sha256.Write sha256.Reset data))
  = sha256.block sha256.init
      (data ++ sha256.padlen (uint64 (Z.of_nat (List.length data)))).
Proof.
  pose proof (finish_empties_buffer data) as He.
  unfold sha256.finish in *.
  set (d := sha256.Write sha256.Reset data) in *.
  assert (Hl : sha256.len d = uint64 (Z.of_nat (List.length data))).
  { unfold d, sha256.Write, sha256.Reset. cbn [sha256.len].
    rewrite Z.add_0_l. reflexivity. }
  rewrite Hl in *.
  set (pad := sha256.padlen (uint64 (Z.of_nat (List.length data)))) in *.
  unfold sha256.Write at 1 in He. cbn [sha256.x] in He.
  unfold sha256.Write at 1. cbn [sha256.h].
  apply (f_equal (@List.length byte)) in He.
  rewrite length_skipn in He. cbn [List.length] in He.
  rewrite firstn_all2 by lia.
  unfold d, sha256.Write, sha256.Reset. cbn [sha256.h sha256.x app].
  set (n := (List.length data / sha256.chunk * sha256.chunk)%nat).
  rewrite (block_app _ _ _ (List.length data / 64)).
  - rewrite app_assoc, firstn_skipn. reflexivity.
  - rewrite length_firstn. unfold n, sha256.chunk.
    pose proof (Nat.div_mod_eq (List.length data) 64). lia.
Qed.

(** [byteorder.BEPutUint32] and [BEPutUint64] write a number most
    significant byte first. *)
Lemma BEPutUint32_big_endian (v : Z) :
  sha256.BEPutUint32 v = fips180.big_endian 4 v.
Proof.
  unfold sha256.BEPutUint32. cbn [fips180.big_endian app].
  rewrite !Z.shiftr_div_pow2 by lia.
  rewrite !Z.div_div by lia. reflexivity.
Qed.

Lemma BEPutUint64_big_endian (v : Z) :
  sha256.BEPutUint64 v = fips180.big_endian 8 v.
Proof.
  unfold sha256.BEPutUint64. cbn [fips180.big_endian app].
  rewrite !Z.shiftr_div_pow2 by lia.
  rewrite !Z.div_div by lia. reflexivity.
Qed.

(** The padding of [checkSum] is the padding of section 5.1.1. *)
Lemma padlen_is_padding (n : nat) :
  sha256.padlen (uint64 (Z.of_nat n)) = fips180.padding n.
Proof.
  unfold sha256.padlen, fips180.padding. cbv zeta.
  unfold uint64 at 1 2 3.
  rewrite (Z.mod_mod_divide (Z.of_nat n) (2 ^ 64) 64)
    by (exists (2 ^ 58); reflexivity).
  rewrite BEPutUint64_big_endian.
  rewrite Z.shiftl_mul_pow2 by lia.
  unfold uint64. rewrite Z.mul_mod_idemp_l by lia.
  replace (Z.of_nat n * 2 ^ 3) with (8 * Z.of_nat n) by lia.
  cbn [app]. f_equal. f_equal.
  f_equal.
  pose proof (Z.div_mod (Z.of_nat n) 64 ltac:(lia)) as Hn.
  pose proof (Z.mod_pos_bound (Z.of_nat n) 64 ltac:(lia)) as Hr.
  set (r := Z.of_nat n mod 64) in *. set (q := Z.of_nat n / 64) in *.
  destruct (r <? 56) eqn:Hlt;
    [apply Z.ltb_lt in Hlt | apply Z.ltb_ge in Hlt].
  - replace ((448 - (8 * Z.of_nat n + 1)) mod 512) with (447 - 8 * r)
      by (apply (Z.mod_unique _ _ (- q)); lia).
    replace (447 - 8 * r - 7) with ((55 - r) * 8) by lia.
    rewrite Z.div_mul by lia. lia.
  - replace ((448 - (8 * Z.of_nat n + 1)) mod 512) with (959 - 8 * r)
      by (apply (Z.mod_unique _ _ (- q - 1)); lia).
    replace (959 - 8 * r - 7) with ((119 - r) * 8) by lia.
    rewrite Z.div_mul by lia. lia.
Qed.

Lemma byte_val_range (b : byte) : 0 <= byte_val b < 256.
Proof.
  unfold byte_val. pose proof (Byte.to_N_bounded b). lia.
Qed.

(** A number that sits below bit [m] and one shifted up by [m] share no
    bits, so [|] adds them. *)
Lemma lor_shiftl_low (y z m : Z) :
  0 <= m -> 0 <= z < 2 ^ m ->
  Z.lor (Z.shiftl y m) z = y * 2 ^ m + z.
Proof.
  intros Hm Hz.
  rewrite <- Z.shiftl_mul_pow2 by exact Hm.
  rewrite <- Z.lxor_lor, Z.add_nocarry_lxor; [reflexivity| |].
  all: apply Z.bits_inj'; intros i Hi;
    rewrite Z.land_spec, Z.bits_0;
    destruct (Z.ltb_spec i m) as [Hlt|Hge];
    [ rewrite Z.shiftl_spec_low by exact Hlt; reflexivity
    | rewrite <- (Z.mod_small z (2 ^ m)) by exact Hz;
      rewrite Z.mod_pow2_bits_high by lia;
      apply andb_false_r ].
Qed.

(** The four bytes of a word, joined by shifts and [|], are the number
    they write in base 256. *)
Lemma be_word_number (a b c d : byte) :
  Z.lor (Z.lor (Z.lor (Z.shiftl (byte_val a) 24) (Z.shiftl (byte_val b) 16))
               (Z.shiftl (byte_val c) 8))
        (byte_val d)
  = fips180.number_of [a; b; c; d].
Proof.
  pose proof (byte_val_range a). pose proof (byte_val_range b).
  pose proof (byte_val_range c). pose proof (byte_val_range d).
  unfold fips180.number_of. cbn [fold_left].
  replace (Z.shiftl (byte_val a) 24)
    with (Z.shiftl (Z.shiftl (Z.shiftl (byte_val a) 8) 8) 8)
    by (rewrite !Z.shiftl_shiftl by lia; reflexivity).
  replace (Z.shiftl (byte_val b) 16)
    with (Z.shiftl (Z.shiftl (byte_val b) 8) 8)
    by (rewrite !Z.shiftl_shiftl by lia; reflexivity).
  rewrite <- !Z.shiftl_lor.
  rewrite (lor_shiftl_low (byte_val a) (byte_val b) 8) by lia.
  rewrite (lor_shiftl_low _ (byte_val c) 8) by lia.
  rewrite (lor_shiftl_low _ (byte_val d) 8) by lia.
  lia.
Qed.

Lemma piece4 (p : list byte) (i : nat) :
  (i * 4 + 4 <= List.length p)%nat ->
  fips180.piece 4 p i
  = [nth (i * 4) p x00; nth (i * 4 + 1) p x00;
     nth (i * 4 + 2) p x00; nth (i * 4 + 3) p x00].
Proof.
  unfold fips180.piece. revert p.
  induction i as [|i IH]; intros p H.
  - destruct p as [|a [|b [|c [|d p]]]]; cbn [List.length] in H; try lia.
    reflexivity.
  - destruct p as [|a [|b [|c [|d p]]]]; cbn [List.length] in H; try lia.
    change (S i * 4)%nat with (S (S (S (S (i * 4))))).
    cbn [skipn nth Nat.add]. apply IH. lia.
Qed.

Lemma parse_block_be_word (p : list byte) :
  List.length p = 64%nat ->
  fips180.parse_block p = map (sha256.be_word p) (seq 0 16).
Proof.
  intros H. unfold fips180.parse_block, fips180.pieces.
  rewrite H. change (64 / 4)%nat with 16%nat.
  rewrite map_map. apply map_ext_in. intros i Hi. apply in_seq in Hi.
  rewrite piece4 by lia.
  unfold sha256.be_word. cbv zeta. symmetry. apply be_word_number.
Qed.

Lemma add32_sum4 (a b c d : Z) :
  sha256.add32 (sha256.add32 (sha256.add32 a b) c) d
  = (a + b + c + d) mod 2 ^ 32.
Proof.
  unfold sha256.add32, uint32.
  rewrite Z.add_mod_idemp_l by lia.
  rewrite <- (Z.add_assoc ((a + b) mod 2 ^ 32)).
  rewrite Z.add_mod_idemp_l by lia.
  f_equal. lia.
Qed.

Lemma add32_sum5 (a b c d e : Z) :
  sha256.add32 (sha256.add32 (sha256.add32 (sha256.add32 a b) c) d) e
  = (a + b + c + d + e) mod 2 ^ 32.
Proof.
  rewrite add32_sum4. unfold sha256.add32, uint32.
  replace ((a + b) mod 2 ^ 32 + c + d + e)
    with ((a + b) mod 2 ^ 32 + (c + d + e)) by lia.
  rewrite Z.add_mod_idemp_l by lia.
  f_equal. lia.
Qed.

Lemma schedule_upto_16 (M : list Z) :
  List.length M = 16%nat -> fips180.schedule_upto 16 M = M.
Proof.
  intros H.
  do 16 (destruct M as [|? M]; [discriminate H|]).
  destruct M; [reflexivity | discriminate H].
Qed.

Lemma schedule_upto_S (t : nat) (M : list Z) :
  fips180.schedule_upto (S t) M
  = fips180.schedule_upto t M ++
    [ if (t <? 16)%nat then nth t M 0
      else (fips180.sigma1 (nth (t - 2) (fips180.schedule_upto t M) 0)
            + nth (t - 7) (fips180.schedule_upto t M) 0
            + fips180.sigma0 (nth (t - 15) (fips180.schedule_upto t M) 0)
            + nth (t - 16) (fips180.schedule_upto t M) 0)
           mod 2 ^ 32 ].
Proof. reflexivity. Qed.

Lemma schedule_loop (M : list Z) (n : nat) :
  List.length M = 16%nat ->
  fold_left
    (fun w i =>
       let v1 := nth (i - 2) w 0 in
       let t1 := Z.lxor (Z.lxor (sha256.rotr v1 17) (sha256.rotr v1 19))
                        (Z.shiftr v1 10) in
       let v2 := nth (i - 15) w 0 in
       let t2 := Z.lxor (Z.lxor (sha256.rotr v2 7) (sha256.rotr v2 18))
                        (Z.shiftr v2 3) in
       w ++ [sha256.add32 (sha256.add32 (sha256.add32 t1 (nth (i - 7) w 0)) t2)
                          (nth (i - 16) w 0)])
    (seq 16 n) M
  = fips180.schedule_upto (n + 16) M.
Proof.
  intros HM. induction n as [|n IH].
  - symmetry. apply schedule_upto_16, HM.
  - rewrite seq_S, fold_left_app, IH. clear IH.
    rewrite (Nat.add_comm 16 n).
    change (S n + 16)%nat with (S (n + 16)).
    rewrite schedule_upto_S.
    generalize (fips180.schedule_upto (n + 16) M) as W. intros W.
    replace (n + 16 <? 16)%nat with false
      by (symmetry; apply Nat.ltb_ge; lia).
    generalize (n + 16)%nat as t. intros t.
    cbn [fold_left]. cbv zeta. rewrite add32_sum4.
    unfold fips180.sigma0, fips180.sigma1, fips180.ROTR, fips180.SHR,
      sha256.rotr, uint32.
    reflexivity.
Qed.

(** The schedule of [blockGeneric] is [W_0 .. W_63]. *)
Lemma schedule_is_W (p : list byte) :
  sha256.schedule p
  = fips180.schedule_upto 64 (map (sha256.be_word p) (seq 0 16)).
Proof.
  unfold sha256.schedule.
  rewrite schedule_loop by (rewrite length_map; apply length_seq).
  reflexivity.
Qed.

Lemma K_is_the_table : fips180.K = sha256._K.
Proof. vm_compute. reflexivity. Qed.

Lemma H0_is_init : fips180.H0 = words_of sha256.init.
Proof. vm_compute. reflexivity. Qed.

(** One round of the loop is step 3 of the standard. *)
Lemma round_is_step (W : list Z) (s : sha256.hash8) (t : nat) :
  vars_of (sha256.round W s t) = fips180.step W (vars_of s) t.
Proof.
  destruct s as [a b c d e f g h].
  unfold sha256.round, fips180.step, vars_of.
  cbn [sha256.h0 sha256.h1 sha256.h2 sha256.h3
       sha256.h4 sha256.h5 sha256.h6 sha256.h7].
  cbv zeta. rewrite K_is_the_table, !(add32_sum5 h).
  generalize (nth t sha256._K 0) as k, (nth t W 0) as w. intros k w.
  unfold fips180.Sigma0, fips180.Sigma1, fips180.Ch, fips180.Maj,
    fips180.complement, fips180.ROTR, sha256.rotr, sha256.not32,
    sha256.add32, uint32.
  change (Z.ones 32) with 0xffffffff.
  reflexivity.
Qed.

Lemma rounds_are_steps (W : list Z) (l : list nat) (s : sha256.hash8) :
  vars_of (fold_left (sha256.round W) l s)
  = fold_left (fips180.step W) l (vars_of s).
Proof.
  revert s. induction l as [|t l IH]; intros s; cbn [fold_left];
    [reflexivity|].
  rewrite IH, round_is_step. reflexivity.
Qed.

(** The body of the loop of [blockGeneric] is section 6.2.2. *)
Lemma block1_is_compress (s : sha256.hash8) (p : list byte) :
  List.length p = 64%nat ->
  words_of (sha256.block1 s p)
  = fips180.compress (words_of s) (fips180.parse_block p).
Proof.
  intros H. unfold sha256.block1, fips180.compress. cbv zeta.
  rewrite (parse_block_be_word p H), <- schedule_is_W.
  change (nth 0 (words_of s) 0, nth 1 (words_of s) 0, nth 2 (words_of s) 0,
          nth 3 (words_of s) 0, nth 4 (words_of s) 0, nth 5 (words_of s) 0,
          nth 6 (words_of s) 0, nth 7 (words_of s) 0)
    with (vars_of s).
  rewrite <- rounds_are_steps.
  destruct (fold_left (sha256.round (sha256.schedule p)) (seq 0 64) s)
    as [a b c d e f g h].
  unfold vars_of, words_of.
  cbn [sha256.h0 sha256.h1 sha256.h2 sha256.h3
       sha256.h4 sha256.h5 sha256.h6 sha256.h7 combine map].
  unfold sha256.add32, uint32.
  rewrite (Z.add_comm a), (Z.add_comm b), (Z.add_comm c), (Z.add_comm d),
    (Z.add_comm e), (Z.add_comm f), (Z.add_comm g), (Z.add_comm h).
  reflexivity.
Qed.

Lemma fold_left_step {A B : Type} (f : A -> B -> A) (x : B) (l : list B)
    (a : A) :
  fold_left f (x :: l) a = fold_left f l (f a x).
Proof. reflexivity. Qed.

Lemma blocks_are_compressions (l : list (list byte)) (s : sha256.hash8) :
  (forall blk, In blk l -> List.length blk = 64%nat) ->
  words_of (fold_left sha256.block1 l s)
  = fold_left (fun H blk => fips180.compress H (fips180.parse_block blk))
              l (words_of s).
Proof.
  revert s. induction l as [|blk l IH]; intros s Hl; [reflexivity|].
  rewrite !fold_left_step.
  rewrite IH by (intros b Hb; apply Hl; right; exact Hb).
  rewrite block1_is_compress by (apply Hl; left; reflexivity).
  reflexivity.
Qed.

(** [sha256.Sum256] computes the SHA-256 of FIPS 180-4. *)
Lemma Sum256_is_SHA256 (data : list byte) :
  sha256.Sum256 data = fips180.SHA256 data.
Proof.
  unfold sha256.Sum256, sha256.checkSum, fips180.SHA256. cbv zeta.
  rewrite finish_hashes_padded_message, padlen_is_padding, block_pieces.
  rewrite H0_is_init, <- blocks_are_compressions
    by (intros blk; apply pieces_length).
  set (s := fold_left sha256.block1 _ _).
  unfold words_of. cbn [flat_map].
  rewrite !BEPutUint32_big_endian, app_nil_r. reflexivity.
Qed.

Lemma SHA256_length (M : list byte) :
  List.length (fips180.SHA256 M) = 32%nat.
Proof. rewrite <- Sum256_is_SHA256. apply Sum256_length. Qed.

(** ** crypto/hmac against RFC 2104 *)

Lemma xor_byte_pad (c : byte) (l : list byte) :
  map (hmac.xor_byte (byte_val c)) l
  = rfc2104.xor_bytes l (repeat c (List.length l)).
Proof.
  unfold rfc2104.xor_bytes.
  induction l as [|b l IH]; [reflexivity|].
  cbn [map List.length repeat combine]. rewrite IH. reflexivity.
Qed.

(** The HMAC of the library, with SHA-256, is the HMAC of RFC 2104 over
    the SHA-256 of the standard. *)
Lemma SumSHA256_is_HMAC (key msg : list byte) :
  hmac.SumSHA256 key msg = rfc2104.HMAC_SHA256 key msg.
Proof.
  unfold hmac.SumSHA256, rfc2104.HMAC_SHA256, sha256.chunk, rfc2104.B.
  cbv zeta. rewrite !Sum256_is_SHA256.
  set (k0 := if (64 <? List.length key)%nat then fips180.SHA256 key else key).
  assert (Hk : (if (List.length key <=? 64)%nat then key
                else fips180.SHA256 key) = k0).
  { unfold k0.
    destruct (Nat.ltb_spec 64 (List.length key)),
             (Nat.leb_spec (List.length key) 64); try lia; reflexivity. }
  rewrite Hk.
  assert (Hlen : List.length (k0 ++ repeat x00 (64 - List.length k0)) = 64%nat).
  { rewrite length_app, repeat_length.
    assert (List.length k0 <= 64)%nat; [|lia].
    unfold k0. destruct (Nat.ltb_spec 64 (List.length key)).
    - rewrite SHA256_length. lia.
    - assumption. }
  change 0x36 with (byte_val x36). change 0x5c with (byte_val x5c).
  rewrite !xor_byte_pad, Hlen. reflexivity.
Qed.

(** ** encoding/hex against base 16 *)

Lemma hex_EncodeToString_lower_hex (src : list byte) :
  hex.EncodeToString src = lower_hex src.
Proof.
  induction src as [|v rest IH]; [reflexivity|].
  cbn [hex.EncodeToString lower_hex]. rewrite IH.
  f_equal; [|f_equal]; destruct v; reflexivity.
Qed.

End AgainstStandards.

(** ** crypto.HashToken *)

Lemma HashToken_length (s : string) :
  String.length (crypto.HashToken s) = 64%nat.
Proof.
  unfold crypto.HashToken.
  rewrite hex_EncodeToString_length, Sum256_length. reflexivity.
Qed.

(** C2: for every input string, [HashToken] is the lowercase hexadecimal
    writing of the SHA-256 digest of the bytes of the input.  The digest is
    that of FIPS 180-4 and the writing is that of base 16, both defined
    apart from the Go library, whose [sha256.Sum256] and
    [hex.EncodeToString] the function calls.  The digest has 32 bytes, so
    the result has 64 characters, each in [[0-9a-f]].  On the one-block
    message [abc] of the standard it is the digest that the standard
    prints. *)
Theorem HashToken_is_hex_of_sha256 (s : string) :
  crypto.HashToken s = lower_hex (fips180.SHA256 (bytes_of_string s))
  /\ crypto.HashToken s = hex.EncodeToString (sha256.Sum256 (bytes_of_string s))
  /\ List.length (fips180.SHA256 (bytes_of_string s)) = 32%nat
  /\ String.length (crypto.HashToken s) = 64%nat
  /\ string_forall is_lower_hex (crypto.HashToken s) = true
  /\ crypto.HashToken "abc" =
     "ba7816bf8f01cfea414140de5dae2223b00361a396177a9cb410ff61f20015ad".
Proof.
  split; [|split; [|split; [|split; [|split]]]].
  - unfold crypto.HashToken. cbv zeta.
    rewrite hex_EncodeToString_lower_hex, Sum256_is_SHA256. reflexivity.
  - reflexivity.
  - apply SHA256_length.
  - apply HashToken_length.
  - unfold crypto.HashToken. apply hex_EncodeToString_lower.
  - vm_compute. reflexivity.
Qed.

Lemma HashToken_empty_digest :
  crypto.HashToken "" =
  "e3b0c44298fc1c149afbf4c8996fb92427ae41e4649b934ca495991b7852b855".
Proof. vm_compute. reflexivity. Qed.

(** C4, as the code behaves: [HashToken] of the empty string is the
    well-known SHA-256 digest of the empty input, 64 lowercase hexadecimal
    characters ending in [b855]. *)
Theorem HashToken_empty :
  crypto.HashToken "" =
  "e3b0c44298fc1c149afbf4c8996fb92427ae41e4649b934ca495991b7852b855"
  /\ String.length (crypto.HashToken "") = 64%nat.
Proof. rewrite HashToken_empty_digest. split; reflexivity. Qed.

(** C4, as stated: the 63-character constant is not what [HashToken]
    returns for the empty string. *)
Lemma HashToken_empty_not_63_chars :
  crypto.HashToken "" <>
  "e3b0c44298fc1c149afbf4c8996fb92427ae41e4649b934ca495991b7852b85".
Proof.
  rewrite HashToken_empty_digest. intro H.
  apply (f_equal String.length) in H. vm_compute in H. discriminate H.
Qed.

(** C6: [HashToken] is a total function of its argument alone: equal
    inputs give equal outputs; every input yields a result (a string of 64
    characters), there being no error component in its result type; and the
    one panic on its path, the [d.nx != 0] check of [checkSum], cannot
    fire. *)
Theorem HashToken_deterministic_total (s1 s2 : string) :
  s1 = s2 ->
  crypto.HashToken s1 = crypto.HashToken s2
  /\ (exists out : string,
        crypto.HashToken s1 = out /\ String.length out = 64%nat)
  /\ sha256.x (sha256.finish (sha256.Write sha256.Reset (bytes_of_string s1)))
     = [].
Proof.
  intros ->. split; [reflexivity|]. split.
  - exists (crypto.HashToken s2). split; [reflexivity|].
    apply HashToken_length.
  - apply finish_empties_buffer.
Qed.

Lemma HashToken_deterministic_total_witness :
  crypto.HashToken "abc" = crypto.HashToken "abc"
  /\ (exists out : string,
        crypto.HashToken "abc" = out /\ String.length out = 64%nat)
  /\ sha256.x (sha256.finish (sha256.Write sha256.Reset (bytes_of_string "abc")))
     = [].
Proof. apply (HashToken_deterministic_total "abc" "abc"). reflexivity. Defined.

(** ** Counting inputs against digests *)

Lemma words_length (a : list byte) (n : nat) :
  List.length (words a n) = (List.length a ^ n)%nat.
Proof.
  induction n as [|n IH]; [reflexivity|].
  cbn [words]. rewrite flat_map_constant_length with (c := List.length (words a n)).
  - rewrite IH. reflexivity.
  - intros b _. apply length_map.
Qed.

Lemma words_complete (a : list byte) (l : list byte) :
  Forall (fun b => In b a) l -> In l (words a (List.length l)).
Proof.
  induction 1 as [|b l Hb _ IH]; [left; reflexivity|].
  cbn [List.length words]. apply in_flat_map. exists b. split; [exact Hb|].
  apply in_map. exact IH.
Qed.

Lemma in_words_step (a : list byte) (W : list (list byte)) (w : list byte) :
  In w (flat_map (fun b => map (cons b) W) a) ->
  exists b t, w = b :: t /\ In b a /\ In t W.
Proof.
  intros H. apply in_flat_map in H. destruct H as (b & Hb & Hw).
  apply in_map_iff in Hw. destruct Hw as (t & <- & Ht).
  exists b, t. auto.
Qed.

Lemma NoDup_words_step (a : list byte) (W : list (list byte)) :
  NoDup a -> NoDup W -> NoDup (flat_map (fun b => map (cons b) W) a).
Proof.
  intros Ha HW. induction Ha as [|b a Hb Ha IH]; [constructor|].
  cbn [flat_map]. apply NoDup_app.
  - apply Injective_map_NoDup_in; [|exact HW].
    intros u v _ _ E. now inversion E.
  - exact IH.
  - intros w Hw1 Hw2.
    apply in_map_iff in Hw1. destruct Hw1 as (t & <- & _).
    apply in_words_step in Hw2. destruct Hw2 as (b' & t' & E & Hb' & _).
    inversion E; subst. contradiction.
Qed.

Lemma words_NoDup (a : list byte) (n : nat) : NoDup a -> NoDup (words a n).
Proof.
  intros Ha. induction n as [|n IH].
  - repeat constructor. intros [].
  - cbn [words]. apply NoDup_words_step; assumption.
Qed.

Lemma string_of_bytes_inj (x y : list byte) :
  string_of_bytes x = string_of_bytes y -> x = y.
Proof.
  unfold string_of_bytes. intros E.
  apply (f_equal list_byte_of_string) in E.
  now rewrite !list_byte_of_string_of_list_byte in E.
Qed.

(** C7, as stated, fails: there are more byte strings of 257 zeros and ones
    than there are 32-byte digests, so [HashToken] cannot be injective. *)
Lemma HashToken_not_injective :
  ~ (forall s1 s2 : string,
       s1 <> s2 -> crypto.HashToken s1 <> crypto.HashToken s2).
Proof.
  intros Hinj.
  set (D := words [x00; x01] 257).
  assert (HD : NoDup (map sha256.Sum256 D)).
  { apply Injective_map_NoDup_in.
    - intros u v _ _ E.
      destruct (list_eq_dec Byte.byte_eq_dec u v) as [|Hne]; [assumption|].
      exfalso.
      apply (Hinj (string_of_bytes u) (string_of_bytes v)).
      + intros E'. apply Hne, string_of_bytes_inj, E'.
      + unfold crypto.HashToken, bytes_of_string, string_of_bytes.
        rewrite !list_byte_of_string_of_list_byte, E. reflexivity.
    - apply words_NoDup. repeat constructor; cbn; intuition discriminate. }
  assert (Hincl : incl (map sha256.Sum256 D) (words all_bytes 32)).
  { intros d Hd. apply in_map_iff in Hd. destruct Hd as (u & <- & _).
    rewrite <- (Sum256_length u). apply words_complete.
    apply Forall_forall. intros b _. apply all_bytes_complete. }
  pose proof (NoDup_incl_length HD Hincl) as Hle.
  rewrite length_map in Hle. unfold D in Hle.
  rewrite !words_length in Hle.
  change (List.length [x00; x01]) with (2 ^ 1)%nat in Hle.
  change (List.length all_bytes) with (2 ^ 8)%nat in Hle.
  rewrite <- !Nat.pow_mul_r in Hle.
  apply Nat.pow_le_mono_r_iff in Hle; [|lia].
  cbn in Hle. lia.
Qed.

(** C7, as the code behaves: two distinct inputs have distinct fingerprints
    whenever their SHA-256 digests differ; the hexadecimal encoding adds no
    collision of its own. *)
Theorem HashToken_distinct_when_digests_differ (s1 s2 : string) :
  s1 <> s2 ->
  sha256.Sum256 (bytes_of_string s1) <> sha256.Sum256 (bytes_of_string s2) ->
  crypto.HashToken s1 <> crypto.HashToken s2.
Proof.
  intros _ Hd E. apply Hd. unfold crypto.HashToken in E.
  apply hex_EncodeToString_inj, E.
Qed.

Lemma HashToken_distinct_when_digests_differ_witness :
  "a" <> "b"
  /\ sha256.Sum256 (bytes_of_string "a") <> sha256.Sum256 (bytes_of_string "b")
  /\ crypto.HashToken "a" <> crypto.HashToken "b".
Proof.
  assert (Hs : "a" <> "b") by discriminate.
  assert (Hd : sha256.Sum256 (bytes_of_string "a")
               <> sha256.Sum256 (bytes_of_string "b"))
    by (vm_compute; discriminate).
  split; [exact Hs|]. split; [exact Hd|].
  exact (HashToken_distinct_when_digests_differ "a" "b" Hs Hd).
Defined.

(** ** encoding/base64 against RFC 4648 *)

Lemma sextet18_of_two (a b : byte) :
  Z.land (Z.shiftr (Z.lor (Z.shiftl (byte_val a) 16) (Z.shiftl (byte_val b) 8)) 18) 0x3F
  = value_of_bits [bit a 7; bit a 6; bit a 5; bit a 4; bit a 3; bit a 2].
Proof. revert a b. by_bytes2. Qed.

Lemma sextet12_of_two (a b : byte) :
  Z.land (Z.shiftr (Z.lor (Z.shiftl (byte_val a) 16) (Z.shiftl (byte_val b) 8)) 12) 0x3F
  = value_of_bits [bit a 1; bit a 0; bit b 7; bit b 6; bit b 5; bit b 4].
Proof. revert a b. by_bytes2. Qed.

Lemma sextet6_of_two (a b : byte) :
  Z.land (Z.shiftr (Z.lor (Z.shiftl (byte_val a) 16) (Z.shiftl (byte_val b) 8)) 6) 0x3F
  = value_of_bits [bit b 3; bit b 2; bit b 1; bit b 0; false; false].
Proof. revert a b. by_bytes2. Qed.

Lemma sextet0_of_two (a b : byte) :
  Z.land (Z.shiftr (Z.lor (Z.shiftl (byte_val a) 16) (Z.shiftl (byte_val b) 8)) 0) 0x3F
  = 0.
Proof. revert a b. by_bytes2. Qed.

Lemma sextet_of_third (c : byte) :
  Z.land (Z.shiftr (byte_val c) 18) 0x3F = 0
  /\ Z.land (Z.shiftr (byte_val c) 12) 0x3F = 0
  /\ Z.land (Z.shiftr (byte_val c) 6) 0x3F = value_of_bits [bit c 7; bit c 6]
  /\ Z.land (Z.shiftr (byte_val c) 0) 0x3F
     = value_of_bits [bit c 5; bit c 4; bit c 3; bit c 2; bit c 1; bit c 0].
Proof. destruct c; vm_compute; auto. Qed.

Lemma sextet6_join (b c : byte) :
  Z.lor (value_of_bits [bit b 3; bit b 2; bit b 1; bit b 0; false; false])
        (value_of_bits [bit c 7; bit c 6])
  = value_of_bits [bit b 3; bit b 2; bit b 1; bit b 0; bit c 7; bit c 6].
Proof. revert b c. by_bytes2. Qed.

(** The sextet at shift [k] of a three-byte group splits into the part of
    the first two bytes and the part of the third. *)
Lemma sextet_split (x c k : Z) :
  Z.land (Z.shiftr (Z.lor x c) k) 0x3F
  = Z.lor (Z.land (Z.shiftr x k) 0x3F) (Z.land (Z.shiftr c k) 0x3F).
Proof. now rewrite Z.shiftr_lor, Z.land_lor_distr_l. Qed.

Lemma list_ind3 (A : Type) (P : list A -> Prop) :
  P [] -> (forall a, P [a]) -> (forall a b, P [a; b]) ->
  (forall a b c l, P l -> P (a :: b :: c :: l)) ->
  forall l, P l.
Proof.
  intros H0 H1 H2 H3.
  fix IH 1. intros [|a [|b [|c l]]];
    [apply H0 | apply H1 | apply H2 | apply H3, IH].
Qed.

Lemma RawURLEncoding_refines_rfc4648 (src : list byte) :
  base64.EncodeToString base64.RawURLEncoding src = rfc4648_base64url src.
Proof.
  induction src as [|a|a b|a b c l IH] using list_ind3.
  - reflexivity.
  - destruct a; reflexivity.
  - unfold rfc4648_base64url, bits_of_bytes.
    cbn [flat_map bits_of_byte app sextets_of_bits firstn repeat map
         string_of_list_ascii base64.EncodeToString base64.padChar
         base64.RawURLEncoding base64.WithPadding].
    unfold base64.sextet. cbn [base64.encode].
    rewrite sextet18_of_two, sextet12_of_two, sextet6_of_two. reflexivity.
  - unfold rfc4648_base64url, bits_of_bytes in *.
    cbn [flat_map bits_of_byte app sextets_of_bits firstn repeat map
         string_of_list_ascii base64.EncodeToString].
    rewrite IH.
    unfold base64.sextet. cbn [base64.encode base64.RawURLEncoding base64.WithPadding].
    destruct (sextet_of_third c) as (C18 & C12 & C6 & C0).
    rewrite !(sextet_split
               (Z.lor (Z.shiftl (byte_val a) 16) (Z.shiftl (byte_val b) 8))
               (byte_val c)), C18, C12, C6, C0.
    rewrite sextet18_of_two, sextet12_of_two, sextet6_of_two, sextet0_of_two.
    rewrite !Z.lor_0_r, sextet6_join. reflexivity.
Qed.

Lemma EncodedLen_step (enc : base64.Encoding) (n : nat) :
  base64.EncodedLen enc (S (S (S n))) = (4 + base64.EncodedLen enc n)%nat.
Proof.
  unfold base64.EncodedLen. destruct (base64.padChar enc).
  - replace (S (S (S n)) + 2)%nat with ((n + 2) + 1 * 3)%nat by lia.
    rewrite Nat.div_add by discriminate. lia.
  - replace (S (S (S n))) with (n + 1 * 3)%nat by lia.
    rewrite Nat.div_add by discriminate. rewrite Nat.Div0.mod_add. lia.
Qed.

(** The encoder writes exactly [EncodedLen] characters, with or without
    padding. *)
Lemma base64_EncodeToString_length (enc : base64.Encoding) (src : list byte) :
  String.length (base64.EncodeToString enc src)
  = base64.EncodedLen enc (List.length src).
Proof.
  induction src as [|a|a b|a b c l IH] using list_ind3.
  - unfold base64.EncodedLen. destruct (base64.padChar enc); reflexivity.
  - unfold base64.EncodedLen. cbn [base64.EncodeToString].
    destruct (base64.padChar enc); reflexivity.
  - unfold base64.EncodedLen. cbn [base64.EncodeToString].
    destruct (base64.padChar enc); reflexivity.
  - cbn [List.length]. rewrite EncodedLen_step.
    cbn [base64.EncodeToString String.length]. rewrite IH. reflexivity.
Qed.

Lemma land_0x3F_range (v : Z) : (0 <= Z.land v 0x3F < 64)%Z.
Proof.
  change 0x3F%Z with (Z.ones 6). rewrite Z.land_ones by lia.
  apply Z.mod_pos_bound. reflexivity.
Qed.

Lemma encodeURL_chars (n : nat) :
  (n < 64)%nat -> is_base64url (index base64.encodeURL (Z.of_nat n)) = true.
Proof.
  intros Hn.
  do 64 (destruct n as [|n]; [reflexivity|]).
  lia.
Qed.

Lemma sextet_is_base64url (enc : base64.Encoding) (val k : Z) :
  base64.encode enc = base64.encodeURL ->
  is_base64url (base64.sextet enc val k) = true.
Proof.
  intros Henc. unfold base64.sextet. rewrite Henc.
  pose proof (land_0x3F_range (Z.shiftr val k)) as Hr.
  rewrite <- (Z2Nat.id (Z.land (Z.shiftr val k) 0x3F)) by lia.
  apply encodeURL_chars. lia.
Qed.

Lemma RawURL_alphabet (src : list byte) :
  string_forall is_base64url
    (base64.EncodeToString base64.RawURLEncoding src) = true.
Proof.
  induction src as [|a|a b|a b c l IH] using list_ind3;
    cbn [base64.EncodeToString base64.padChar base64.RawURLEncoding
         base64.WithPadding string_forall];
    rewrite ?sextet_is_base64url by reflexivity;
    rewrite ?IH; reflexivity.
Qed.

(** ** crypto/rand *)

Section RandomSource.

Context {S : Type} `{rand.Source S}.

(** [Read] never changes the length of the slice. *)
Lemma Read_length (s s' : S) (b b' : list byte) (err : option error) :
  rand.Read s b = Returns (s', (b', err)) -> List.length b' = List.length b.
Proof.
  unfold rand.Read. destruct (rand.draw s (List.length b)) as [s1 [data [e|]]];
    intros E; inversion E; subst.
  rewrite length_app, length_firstn, length_skipn. lia.
Qed.

(** [Read] returns no error: it returns with a nil error or not at all. *)
Lemma Read_returns_nil (s s' : S) (b b' : list byte) (err : option error) :
  rand.Read s b = Returns (s', (b', err)) -> err = None.
Proof.
  unfold rand.Read. destruct (rand.draw s (List.length b)) as [s1 [data [e|]]];
    intros E; inversion E; reflexivity.
Qed.

(** After a successful [Read] the slice holds the bytes drawn and nothing
    else. *)
Lemma Read_success (s s' : S) (b b' : list byte) :
  rand.Read s b = Returns (s', (b', None)) ->
  rand.draw s (List.length b) = (s', (b', None)).
Proof.
  unfold rand.Read.
  destruct (rand.draw s (List.length b)) as [s1 [data [e|]]] eqn:Hd;
    intros E; inversion E; subst.
  pose proof (rand.draw_full _ _ _ _ Hd) as Hlen.
  rewrite <- Hlen, firstn_all, skipn_all2 by lia.
  rewrite app_nil_r. reflexivity.
Qed.

End RandomSource.

(** ** crypto.GenerateRefreshToken *)

Section GenerateRefreshToken.

Context {S : Type} `{rand.Source S}.

Lemma GenerateRefreshToken_unfold (s : S) :
  crypto.GenerateRefreshToken s =
  match rand.Read s (repeat x00 64) with
  | Fatal cause => Fatal cause
  | Returns (s', (_, Some e)) => Returns (s', (EmptyString, Some e))
  | Returns (s', (b', None)) =>
      Returns (s', (base64.EncodeToString base64.RawURLEncoding b', None))
  end.
Proof.
  unfold crypto.GenerateRefreshToken.
  destruct (rand.Read s (repeat x00 64)) as [[s' [b' [e|]]]|cause]; reflexivity.
Qed.

(** A call that returns has read the source once, with success, and
    returns the encoding of what it read with a nil error. *)
Lemma GenerateRefreshToken_returns (s s' : S) (tok : string) (err : option error) :
  crypto.GenerateRefreshToken s = Returns (s', (tok, err)) ->
  exists data : list byte,
    rand.draw s 64 = (s', (data, None))
    /\ List.length data = 64%nat
    /\ tok = base64.EncodeToString base64.RawURLEncoding data
    /\ err = None.
Proof.
  rewrite GenerateRefreshToken_unfold.
  destruct (rand.Read s (repeat x00 64)) as [[s1 [b' e]]|cause] eqn:HR;
    [|discriminate].
  pose proof (Read_returns_nil _ _ _ _ _ HR) as ->.
  intros E. inversion E; subst.
  exists b'. apply Read_success in HR. rewrite repeat_length in HR.
  split; [exact HR|]. split; [|split; reflexivity].
  apply (rand.draw_full _ _ _ _ HR).
Qed.

(** C1: on success the token is exactly the unpadded URL-safe base64
    encoding of the 64 bytes that the random source supplied: the result
    of [RawURLEncoding.EncodeToString] on them, which is their RFC 4648
    encoding. *)
Theorem GenerateRefreshToken_encodes_drawn_bytes (s s' : S) (tok : string) :
  crypto.GenerateRefreshToken s = Returns (s', (tok, None)) ->
  exists data : list byte,
    rand.draw s 64 = (s', (data, None))
    /\ List.length data = 64%nat
    /\ tok = base64.EncodeToString base64.RawURLEncoding data
    /\ tok = rfc4648_base64url data.
Proof.
  intros Hg.
  destruct (GenerateRefreshToken_returns s s' tok None Hg)
    as (data & Hd & Hlen & -> & _).
  exists data. split; [exact Hd|]. split; [exact Hlen|]. split; [reflexivity|].
  apply RawURLEncoding_refines_rfc4648.
Qed.


(** C5: on success the token has exactly 86 characters, each of them in
    [[A-Za-z0-9_-]]. *)
Theorem GenerateRefreshToken_token_shape (s s' : S) (tok : string) :
  crypto.GenerateRefreshToken s = Returns (s', (tok, None)) ->
  String.length tok = 86%nat
  /\ string_forall is_base64url tok = true.
Proof.
  rewrite GenerateRefreshToken_unfold.
  destruct (rand.Read s (repeat x00 64)) as [[s1 [b' [e|]]]|cause] eqn:HR;
    intros E; inversion E; subst.
  split.
  - rewrite base64_EncodeToString_length.
    rewrite (Read_length _ _ _ _ _ HR), repeat_length. reflexivity.
  - apply RawURL_alphabet.
Qed.


End GenerateRefreshToken.

Lemma GenerateRefreshToken_encodes_drawn_bytes_witness :
  exists data : list byte,
    rand.draw 0%nat 64 = (64%nat, (data, None))
    /\ List.length data = 64%nat
    /\ counter_token = base64.EncodeToString base64.RawURLEncoding data
    /\ counter_token = rfc4648_base64url data.
Proof.
  apply (GenerateRefreshToken_encodes_drawn_bytes 0%nat 64%nat counter_token).
  vm_compute. reflexivity.
Defined.

Lemma GenerateRefreshToken_token_shape_witness :
  String.length counter_token = 86%nat
  /\ string_forall is_base64url counter_token = true.
Proof.
  apply (GenerateRefreshToken_token_shape 0%nat 64%nat counter_token).
  vm_compute. reflexivity.
Defined.



(** No call returns the empty token with a non-nil error, not even at a
    source that fails: the error branch of the function is never taken. *)
Lemma GenerateRefreshToken_returns_no_empty_token_with_error :
  ~ (exists (s' : unit) (e : error),
       crypto.GenerateRefreshToken tt = Returns (s', (EmptyString, Some e))).
Proof. intros (s' & e & E). discriminate E. Qed.

(** ** jwt.GenerateToken *)

Section GenerateToken.

Variable Claims : Type.
Variable Marshal_claims : Claims -> list byte * option error.

(** C9: for every secret and every claims value the token is built with
    [SigningMethodHS256]: that is its method, whose name is HS256 and
    whose [Sign] is, for every message and key, the HMAC of RFC 2104 over
    the SHA-256 of FIPS 180-4; the header names HS256; and whenever the
    signing string can be formed the result is that string, a dot, and the
    base64url writing of its HMAC-SHA256 under the secret.  The method is
    the same constant for all inputs.  The signature is checked on test
    case 2 of RFC 4231. *)
Theorem GenerateToken_always_HS256 (secret : list byte) (claims : Claims) :
  let t := jwt.GenerateToken_t claims in
  jwtlib.Method t = jwtlib.SigningMethodHS256
  /\ jwtlib.Alg (jwtlib.Method t) = "HS256"
  /\ (forall (msg : string) (key : list byte),
        jwtlib.Sign (jwtlib.Method t) msg key
        = (rfc2104.HMAC_SHA256 key (bytes_of_string msg), None))
  /\ jwtlib.Header t = [("typ", "JWT"); ("alg", "HS256")]
  /\ jwt.GenerateToken Marshal_claims secret claims
     = jwtlib.SignedString Marshal_claims t secret
  /\ (forall sstr : string,
        jwtlib.SigningString Marshal_claims t = (sstr, None) ->
        jwt.GenerateToken Marshal_claims secret claims
        = (sstr ++ "." ++
             rfc4648_base64url
               (rfc2104.HMAC_SHA256 secret (bytes_of_string sstr)), None))
  /\ (forall e : error,
        snd (jwtlib.SigningString Marshal_claims t) = Some e ->
        jwt.GenerateToken Marshal_claims secret claims = ("", Some e))
  /\ lower_hex (fst (jwtlib.Sign (jwtlib.Method t)
                       "what do ya want for nothing?"
                       (bytes_of_string "Jefe")))
     = "5bdcc146bf60754e6a042426089575c75a003f089d2739839dec58b964ec3843".
Proof.
  cbv zeta.
  split; [reflexivity|]. split; [reflexivity|]. split.
  { intros msg key.
    change (jwtlib.Sign (jwtlib.Method (jwt.GenerateToken_t claims)) msg key)
      with (hmac.SumSHA256 key (bytes_of_string msg), @None error).
    rewrite SumSHA256_is_HMAC. reflexivity. }
  split; [reflexivity|]. split; [reflexivity|]. split.
  { intros sstr Hs.
    transitivity
      (sstr ++ "." ++
         jwtlib.EncodeSegment (hmac.SumSHA256 secret (bytes_of_string sstr)),
       @None error).
    - unfold jwt.GenerateToken, jwtlib.SignedString.
      rewrite Hs. reflexivity.
    - unfold jwtlib.EncodeSegment.
      rewrite RawURLEncoding_refines_rfc4648, SumSHA256_is_HMAC.
      reflexivity. }
  split.
  { intros e He. unfold jwt.GenerateToken, jwtlib.SignedString.
    destruct (jwtlib.SigningString _ _) as [sstr [e'|]]; cbn in He.
    + now inversion He.
    + discriminate He. }
  vm_compute. reflexivity.
Qed.

End GenerateToken.

(** ** errors *)

Lemma is_errno_join (errs : list error) (t : syscall.Errno) :
  errors.is_errno (joinError errs) t = existsb (fun e => errors.is_errno e t) errs.
Proof.
  induction errs as [|e l IH]; [reflexivity|].
  cbn [existsb]. rewrite <- IH. cbn.
  destruct (errors.is_errno e t); reflexivity.
Qed.

Lemma as_PathError_join (e : error) (l : list error) :
  errors.as_PathError (joinError (e :: l)) =
  match errors.as_PathError e with
  | Some p => Some p
  | None => errors.as_PathError (joinError l)
  end.
Proof. reflexivity. Qed.

(** [errors.Is] with an errno target finds exactly the errnos of the tree. *)
Lemma is_errno_wraps (e : error) (t : syscall.Errno) :
  errors.is_errno e t = true <-> wraps e t.
Proof.
  split.
  - induction e as [n|s|op path|op path e IH|msg|msg e IH|errs IH] using error_ind';
      intros Hi; try discriminate Hi.
    + apply Z.eqb_eq in Hi. subst. constructor.
    + constructor. auto.
    + constructor. auto.
    + rewrite is_errno_join in Hi. apply existsb_exists in Hi.
      destruct Hi as (e & Hin & He).
      rewrite Forall_forall in IH.
      apply (wraps_joinError errs e); auto.
  - induction 1 as [t|op path e t _ IH|msg e t _ IH|errs e t Hin _ IH].
    + cbn. apply Z.eqb_refl.
    + exact IH.
    + exact IH.
    + rewrite is_errno_join. apply existsb_exists. exists e. auto.
Qed.

(** The [*os.PathError] that [errors.As] finds lies in the tree, so an errno
    below it is an errno of the whole error. *)
Lemma as_PathError_below (e p : error) (t : syscall.Errno) :
  errors.as_PathError e = Some p -> wraps p t -> wraps e t.
Proof.
  induction e as [n|s|op path|op path e IH|msg|msg e IH|errs IH] using error_ind';
    intros Ha Hw; try discriminate Ha.
  - inversion Ha; subst. exact Hw.
  - inversion Ha; subst. exact Hw.
  - constructor. auto.
  - induction IH as [|e l He _ IHl]; [discriminate Ha|].
    rewrite as_PathError_join in Ha.
    destruct (errors.as_PathError e) as [q|] eqn:Hq.
    + inversion Ha; subst.
      apply (wraps_joinError (e :: l) e); [left; reflexivity|auto].
    + specialize (IHl Ha). inversion IHl; subst.
      apply (wraps_joinError (e :: l) e0); [right; assumption|assumption].
Qed.

(** ** logx1.Sync *)

(** C10: [Sync] returns nil for a nil logger, for a successful underlying
    [Sync], and for an underlying error that is or wraps (also through an
    [os.PathError]) [EINVAL] or [ENOTTY]; in every other case it returns the
    underlying error unchanged. *)
Theorem Sync_filters_benign_errors (l : option logx1.Logger) :
  ((l = None \/ underlying l = None
    \/ exists e, underlying l = Some e /\ benign e) ->
   logx1.Sync l = None)
  /\ (~ (l = None \/ underlying l = None
         \/ exists e, underlying l = Some e /\ benign e) ->
      logx1.Sync l = underlying l).
Proof.
  destruct l as [[err]|]; cbn [underlying logx1.Sync logx1.Logger_Sync];
    [|split; reflexivity].
  destruct err as [e|]; [|split; reflexivity].
  cbn [errors.Is errors.As_PathError].
  destruct (errors.is_errno e syscall.EINVAL) eqn:H1.
  { split; [reflexivity|]. intros Hn. exfalso. apply Hn.
    right; right. exists e. split; [reflexivity|].
    left. now apply is_errno_wraps. }
  destruct (errors.is_errno e syscall.ENOTTY) eqn:H2.
  { split; [reflexivity|]. intros Hn. exfalso. apply Hn.
    right; right. exists e. split; [reflexivity|].
    right. now apply is_errno_wraps. }
  cbn [orb].
  assert (Hnb : ~ benign e).
  { intros [Hw|Hw]; apply is_errno_wraps in Hw; congruence. }
  split.
  - intros [Hl|[Hl|(e' & He' & Hb)]]; try discriminate.
    inversion He'; subst. contradiction.
  - intros _. destruct (errors.as_PathError e) as [p|] eqn:Hp; [|reflexivity].
    destruct (errors.is_errno p syscall.EINVAL) eqn:H3.
    { exfalso. apply Hnb. left.
      apply (as_PathError_below e p); [exact Hp|]. now apply is_errno_wraps. }
    destruct (errors.is_errno p syscall.ENOTTY) eqn:H4.
    { exfalso. apply Hnb. right.
      apply (as_PathError_below e p); [exact Hp|]. now apply is_errno_wraps. }
    reflexivity.
Qed.

(** * Further properties *)

Local Open Scope list_scope.

(** ** The range clause over strings *)

Example range_two_byte_rune :
  utf8.range [x68; xc3; xa9; x6c; x6c; x6f]
  = [(0%nat, 0x68%Z); (1%nat, 0xE9%Z); (3%nat, 0x6C%Z); (4%nat, 0x6C%Z);
     (5%nat, 0x6F%Z)].
Proof. reflexivity. Qed.

Example range_three_and_four_byte_runes :
  utf8.range [xe2; x82; xac; xf0; x9d; x84; x9e]
  = [(0%nat, 0x20AC%Z); (3%nat, 0x1D11E%Z)].
Proof. reflexivity. Qed.

Example range_invalid_bytes :
  utf8.range [xc0; x80; xed; xa0; x80; xff; xc3]
  = map (fun i => (i, utf8.runeError)) (seq 0 7).
Proof. reflexivity. Qed.

Example normalized_examples :
  map logx1_preset.normalized ["PROD"; "Production"; "pr0d-X_y"; ""]
  = ["prod"; "production"; "pr0d-x_y"; ""].
Proof. vm_compute. reflexivity. Qed.

Example normalized_capital_e_acute :
  bytes_of_string
    (logx1_preset.normalized (string_of_bytes [x48; xc3; x89; x4c]))
  = [x68; xc3; x00; x6c].
Proof. vm_compute. reflexivity. Qed.

(** ** logx1.normalized *)

Lemma store_app (out t : list byte) (x c : byte) :
  logx1_preset.store (out ++ x :: t) (List.length out) c = out ++ c :: t.
Proof.
  induction out as [|o out IH]; [reflexivity|].
  cbn [app List.length logx1_preset.store]. now rewrite IH.
Qed.

Lemma normalized_body_at (s pre suf out t : list byte) (c x : byte) (r : Z) :
  s = pre ++ c :: suf ->
  List.length out = List.length pre ->
  logx1_preset.normalized_body s (out ++ x :: t) (List.length pre, r)
  = out ++ downcase c :: t.
Proof.
  intros -> Hlen. unfold logx1_preset.normalized_body. cbn [fst].
  rewrite nth_middle. rewrite <- Hlen. apply store_app.
Qed.

(** The loop of [normalized], started anywhere in the string, fills the
    rest of the buffer as [downcase_starts] says. *)
Lemma normalized_loop (s pre suf out : list byte) (skip : nat) :
  s = pre ++ suf ->
  List.length out = List.length pre ->
  fold_left (logx1_preset.normalized_body s)
    (utf8.range_from suf (List.length pre) skip)
    (out ++ repeat x00 (List.length suf))
  = out ++ downcase_starts suf skip.
Proof.
  revert pre out skip.
  induction suf as [|c suf IH]; intros pre out skip Hs Hlen.
  - reflexivity.
  - assert (Hs' : s = (pre ++ [c]) ++ suf) by (now rewrite <- app_assoc).
    assert (Hn : S (List.length pre) = List.length (pre ++ [c]))
      by (rewrite length_app; cbn; lia).
    cbn [List.length repeat utf8.range_from downcase_starts].
    destruct skip as [|k].
    + destruct (utf8.next_rune (c :: suf)) as [r w] eqn:Hr. cbn [snd fold_left].
      rewrite (normalized_body_at s pre suf out _ c x00 r Hs Hlen).
      rewrite Hn.
      replace (out ++ downcase c :: repeat x00 (List.length suf))
        with ((out ++ [downcase c]) ++ repeat x00 (List.length suf))
        by (now rewrite <- app_assoc).
      rewrite (IH (pre ++ [c]) (out ++ [downcase c]) (w - 1)%nat Hs').
      * now rewrite <- app_assoc.
      * rewrite !length_app. cbn. lia.
    + rewrite Hn.
      replace (out ++ x00 :: repeat x00 (List.length suf))
        with ((out ++ [x00]) ++ repeat x00 (List.length suf))
        by (now rewrite <- app_assoc).
      rewrite (IH (pre ++ [c]) (out ++ [x00]) k Hs').
      * now rewrite <- app_assoc.
      * rewrite !length_app. cbn. lia.
Qed.

Lemma normalized_bytes (s : string) :
  bytes_of_string (logx1_preset.normalized s)
  = downcase_starts (bytes_of_string s) 0.
Proof.
  unfold logx1_preset.normalized, utf8.range. cbv zeta.
  unfold bytes_of_string, string_of_bytes.
  rewrite list_byte_of_string_of_list_byte.
  apply (normalized_loop (list_byte_of_string s) [] (list_byte_of_string s) [] 0);
    reflexivity.
Qed.

Lemma bytes_of_string_length (s : string) :
  List.length (bytes_of_string s) = String.length s.
Proof.
  unfold bytes_of_string, list_byte_of_string. rewrite length_map.
  induction s as [|c s IH]; [reflexivity|]. cbn. now rewrite IH.
Qed.

Lemma bytes_of_string_inj (s t : string) :
  bytes_of_string s = bytes_of_string t -> s = t.
Proof.
  unfold bytes_of_string. intros E.
  apply (f_equal string_of_list_byte) in E.
  now rewrite !string_of_list_byte_of_string in E.
Qed.

Lemma bytes_of_string_of_bytes (l : list byte) :
  bytes_of_string (string_of_bytes l) = l.
Proof. apply list_byte_of_string_of_list_byte. Qed.

Lemma downcase_facts (c : byte) :
  is_upper (downcase c) = false
  /\ is_ascii (downcase c) = is_ascii c
  /\ (is_upper c = false -> downcase c = c)
  /\ (is_ascii c = false -> downcase c = c).
Proof. destruct c; vm_compute; intuition discriminate. Qed.

Lemma next_rune_ascii (c : byte) (rest : list byte) :
  is_ascii c = true -> snd (utf8.next_rune (c :: rest)) = 1%nat.
Proof.
  unfold is_ascii, utf8.next_rune. intros ->. reflexivity.
Qed.

Lemma downcase_starts_length (s : list byte) (skip : nat) :
  List.length (downcase_starts s skip) = List.length s.
Proof.
  revert skip. induction s as [|c s IH]; intros skip; [reflexivity|].
  cbn [downcase_starts]. destruct skip; cbn [List.length]; now rewrite IH.
Qed.

Lemma downcase_starts_ascii (s : list byte) :
  forallb is_ascii s = true -> downcase_starts s 0 = map downcase s.
Proof.
  induction s as [|c s IH]; [reflexivity|].
  cbn [forallb]. intros H. apply andb_prop in H. destruct H as [Hc Hs].
  cbn [downcase_starts map]. rewrite (next_rune_ascii c s Hc).
  cbn [Nat.sub]. now rewrite IH.
Qed.

(** Byte for byte, the buffer holds the downcased input byte or zero. *)
Lemma downcase_starts_pointwise (s : list byte) (skip : nat) :
  Forall2 (fun c o => o = downcase c \/ o = x00) s (downcase_starts s skip).
Proof.
  revert skip. induction s as [|c s IH]; intros skip; [constructor|].
  cbn [downcase_starts]. destruct skip; constructor; auto.
Qed.

Lemma downcase_starts_no_upper (s : list byte) (skip : nat) :
  existsb is_upper (downcase_starts s skip) = false.
Proof.
  revert skip. induction s as [|c s IH]; intros skip; [reflexivity|].
  cbn [downcase_starts].
  destruct skip; cbn [existsb]; rewrite IH.
  - destruct (downcase_facts c) as [-> _]. reflexivity.
  - reflexivity.
Qed.

Lemma normalized_same_length (s : string) :
  String.length (logx1_preset.normalized s) = String.length s.
Proof.
  rewrite <- !bytes_of_string_length, normalized_bytes.
  apply downcase_starts_length.
Qed.


(** X2: on a string of ASCII bytes [normalized] is the bytewise map of
    A..Z to a..z; every other byte is kept. *)
Theorem normalized_ascii (s : string) :
  forallb is_ascii (bytes_of_string s) = true ->
  logx1_preset.normalized s = ascii_lower s.
Proof.
  intros Ha. apply bytes_of_string_inj.
  rewrite normalized_bytes. unfold ascii_lower.
  rewrite bytes_of_string_of_bytes. now apply downcase_starts_ascii.
Qed.

Lemma normalized_ascii_witness :
  forallb is_ascii (bytes_of_string "Pr0d_MODE-x") = true
  /\ logx1_preset.normalized "Pr0d_MODE-x" = "pr0d_mode-x".
Proof.
  split; [reflexivity|].
  exact (normalized_ascii "Pr0d_MODE-x" eq_refl).
Defined.

(** X3: whatever the input, no byte of the result of [normalized] is an
    ASCII capital letter. *)
Theorem normalized_no_capitals (s : string) :
  existsb is_upper (bytes_of_string (logx1_preset.normalized s)) = false.
Proof. rewrite normalized_bytes. apply downcase_starts_no_upper. Qed.

(** X4: every byte of the result of [normalized] is the downcased byte of
    the input at the same index, or zero; bytes are never moved or
    invented. *)
Theorem normalized_pointwise (s : string) :
  Forall2 (fun c o => o = downcase c \/ o = x00)
    (bytes_of_string s) (bytes_of_string (logx1_preset.normalized s)).
Proof. rewrite normalized_bytes. apply downcase_starts_pointwise. Qed.

Lemma decoderune_two_bytes (c0 c1 : byte) :
  (0xC2 <=? byte_val c0)%Z && (byte_val c0 <=? 0xDF)%Z && utf8.is_cont c1 = true ->
  is_ascii c0 = false /\ snd (utf8.decoderune [c0; c1]) = 2%nat.
Proof.
  revert c0 c1.
  assert (H : forall c0 c1,
    implb ((0xC2 <=? byte_val c0)%Z && (byte_val c0 <=? 0xDF)%Z && utf8.is_cont c1)
          (negb (is_ascii c0) && Nat.eqb (snd (utf8.decoderune [c0; c1])) 2)
    = true).
  { apply forall_bytes2. vm_compute. reflexivity. }
  intros c0 c1 Hc. specialize (H c0 c1). rewrite Hc in H. cbn [implb] in H.
  apply andb_prop in H. destruct H as [Ha Hw].
  apply negb_true_iff in Ha. apply Nat.eqb_eq in Hw. auto.
Qed.

Lemma decoderune_ignores_tail2 (c0 c1 : byte) (rest : list byte) :
  ((0xC0 <=? byte_val c0) && (byte_val c0 <? 0xE0))%Z = true ->
  utf8.decoderune (c0 :: c1 :: rest) = utf8.decoderune [c0; c1].
Proof. intros H. unfold utf8.decoderune. cbv zeta. rewrite H. reflexivity. Qed.

(** X5: [normalized] is not the bytewise downcase outside ASCII: where the
    input holds a valid two-byte UTF-8 sequence (lead byte C2..DF, one
    continuation byte), the lead byte is copied and the continuation byte
    becomes zero. *)
Theorem normalized_two_byte_rune (c0 c1 : byte) (rest : list byte) :
  (0xC2 <=? byte_val c0)%Z && (byte_val c0 <=? 0xDF)%Z && utf8.is_cont c1 = true ->
  bytes_of_string (logx1_preset.normalized (string_of_bytes (c0 :: c1 :: rest)))
  = c0 :: x00
       :: bytes_of_string (logx1_preset.normalized (string_of_bytes rest)).
Proof.
  intros Hc. rewrite !normalized_bytes, !bytes_of_string_of_bytes.
  destruct (decoderune_two_bytes c0 c1 Hc) as [Ha Hw].
  assert (Hlead : ((0xC0 <=? byte_val c0) && (byte_val c0 <? 0xE0))%Z = true).
  { apply andb_prop in Hc. destruct Hc as [Hc _].
    apply andb_prop in Hc. destruct Hc as [Hlo Hhi].
    apply Z.leb_le in Hlo, Hhi. apply andb_true_intro.
    split; [apply Z.leb_le | apply Z.ltb_lt]; lia. }
  cbn [downcase_starts].
  assert (Hn : snd (utf8.next_rune (c0 :: c1 :: rest)) = 2%nat).
  { unfold utf8.next_rune. unfold is_ascii in Ha. rewrite Ha.
    now rewrite decoderune_ignores_tail2. }
  rewrite Hn. cbn [Nat.sub].
  destruct (downcase_facts c0) as (_ & _ & _ & Hd). now rewrite (Hd Ha).
Qed.

Lemma normalized_two_byte_rune_witness :
  bytes_of_string (logx1_preset.normalized (string_of_bytes [xc3; x89; x54]))
  = [xc3; x00; x74].
Proof.
  exact (normalized_two_byte_rune xc3 x89 [x54] eq_refl).
Defined.

(** ** logx1.New *)

Lemma plain_buffer (s o : list byte) :
  Forall2 (fun c o => o = downcase c \/ o = x00) s o ->
  forallb is_plain o = true ->
  forallb is_ascii s = true /\ o = map downcase s.
Proof.
  induction 1 as [|c o' s os Hc _ IH]; [auto|].
  cbn [forallb map]. intros Hp. apply andb_prop in Hp. destruct Hp as [Ho Hos].
  destruct (IH Hos) as [Ha ->].
  destruct Hc as [->| ->]; [|discriminate Ho].
  unfold is_plain in Ho. apply andb_prop in Ho. destruct Ho as [Ho _].
  destruct (downcase_facts c) as (_ & Hasc & _). rewrite Hasc in Ho.
  rewrite Ho, Ha. auto.
Qed.

Lemma plain_downcase (s : list byte) :
  forallb is_plain (map downcase s) = true -> forallb is_ascii s = true.
Proof.
  induction s as [|c s IH]; [reflexivity|].
  cbn [map forallb]. intros Hp. apply andb_prop in Hp. destruct Hp as [Hc Hs].
  unfold is_plain in Hc. apply andb_prop in Hc. destruct Hc as [Hc _].
  destruct (downcase_facts c) as (_ & Hasc & _). rewrite Hasc in Hc.
  now rewrite Hc, IH.
Qed.

(** For a plain target, [normalized] hits it exactly when the bytewise
    case folding does. *)
Lemma normalized_eq_iff (s t : string) :
  forallb is_plain (bytes_of_string t) = true ->
  logx1_preset.normalized s = t <-> ascii_lower s = t.
Proof.
  intros Hp. split; intros E.
  - pose proof (downcase_starts_pointwise (bytes_of_string s) 0) as HF.
    rewrite <- normalized_bytes, E in HF.
    destruct (plain_buffer _ _ HF Hp) as [_ Ho].
    unfold ascii_lower. rewrite <- Ho. apply string_of_list_byte_of_string.
  - unfold ascii_lower in E. apply (f_equal bytes_of_string) in E.
    rewrite bytes_of_string_of_bytes in E. rewrite <- E in Hp.
    apply plain_downcase in Hp.
    apply bytes_of_string_inj. rewrite normalized_bytes, <- E.
    now apply downcase_starts_ascii.
Qed.

Section New.

Variable R : Type.
Variable NewProduction NewDevelopment : R.

(** X6: [New] selects the production preset exactly for the modes whose
    bytewise ASCII case folding is "prod" or "production", and the
    development preset for every other mode. *)
Theorem New_selects_by_ascii_case (mode : string) :
  (ascii_lower mode = "prod" \/ ascii_lower mode = "production" ->
   logx1_preset.New NewProduction NewDevelopment mode = NewProduction)
  /\ (~ (ascii_lower mode = "prod" \/ ascii_lower mode = "production") ->
      logx1_preset.New NewProduction NewDevelopment mode = NewDevelopment).
Proof.
  unfold logx1_preset.New. cbv zeta.
  pose proof (normalized_eq_iff mode "prod" eq_refl) as H1.
  pose proof (normalized_eq_iff mode "production" eq_refl) as H2.
  destruct (String.eqb (logx1_preset.normalized mode) "prod") eqn:E1.
  { apply String.eqb_eq in E1. split; [reflexivity|].
    intros Hn. exfalso. apply Hn. left. now apply H1. }
  destruct (String.eqb (logx1_preset.normalized mode) "production") eqn:E2.
  { apply String.eqb_eq in E2. split; [reflexivity|].
    intros Hn. exfalso. apply Hn. right. now apply H2. }
  apply String.eqb_neq in E1, E2. cbn [orb]. split; [|reflexivity].
  intros [Hm|Hm]; exfalso.
  - apply E1. now apply H1.
  - apply E2. now apply H2.
Qed.

(** X7: [New] compares the whole mode and trims nothing: a mode whose
    length is neither 4 nor 10 selects the development preset. *)
Theorem New_does_not_trim (mode : string) :
  String.length mode <> 4%nat ->
  String.length mode <> 10%nat ->
  logx1_preset.New NewProduction NewDevelopment mode = NewDevelopment.
Proof.
  intros H4 H10. unfold logx1_preset.New. cbv zeta.
  pose proof (normalized_same_length mode) as Hlen.
  destruct (String.eqb (logx1_preset.normalized mode) "prod") eqn:E1.
  { apply String.eqb_eq in E1. rewrite E1 in Hlen. cbn in Hlen. congruence. }
  destruct (String.eqb (logx1_preset.normalized mode) "production") eqn:E2.
  { apply String.eqb_eq in E2. rewrite E2 in Hlen. cbn in Hlen. congruence. }
  reflexivity.
Qed.

End New.

Lemma New_does_not_trim_witness :
  logx1_preset.New true false " prod" = false
  /\ logx1_preset.New true false "production " = false.
Proof.
  split.
  - apply (New_does_not_trim bool true false " prod"); discriminate.
  - apply (New_does_not_trim bool true false "production "); discriminate.
Defined.

(** ** logx1.Sync, further *)

(** X8: [Sync] drops a joined error as a whole as soon as one of its
    members is or wraps [EINVAL] or [ENOTTY], whatever the other members
    are. *)
Theorem Sync_drops_joined_error (errs : list error) (e : error) :
  In e errs -> benign e ->
  logx1.Sync (Some (logx1.mkLogger (Some (joinError errs)))) = None.
Proof.
  intros Hin Hb. cbn [logx1.Sync logx1.Logger_Sync errors.Is].
  destruct Hb as [Hw|Hw];
    apply (wraps_joinError errs e _ Hin), is_errno_wraps in Hw; rewrite Hw.
  - reflexivity.
  - now rewrite orb_true_r.
Qed.

Lemma Sync_drops_joined_error_witness :
  logx1.Sync (Some (logx1.mkLogger (Some (joinError
    [ errorString "write /var/log/app.log: no space left on device";
      PathError "sync" "/dev/stderr" (Some (ErrnoError syscall.ENOTTY)) ]))))
  = None.
Proof.
  apply (Sync_drops_joined_error _
           (PathError "sync" "/dev/stderr" (Some (ErrnoError syscall.ENOTTY)))).
  - right. left. reflexivity.
  - right. constructor. constructor.
Defined.

(** X9: the [errors.As] test of [Sync] never decides anything: for every
    logger the result is the one of the first three tests alone, nil when
    the underlying error is nil or [errors.Is] finds [EINVAL] or [ENOTTY],
    and the underlying error otherwise. *)
Theorem Sync_decided_by_errors_Is (l : option logx1.Logger) :
  logx1.Sync l =
  match underlying l with
  | None => None
  | Some e =>
      if errors.Is (Some e) syscall.EINVAL || errors.Is (Some e) syscall.ENOTTY
      then None
      else Some e
  end.
Proof.
  destruct l as [[[e|]]|]; cbn [underlying logx1.Sync logx1.Logger_Sync];
    try reflexivity.
  destruct (errors.Is (Some e) syscall.EINVAL || errors.Is (Some e) syscall.ENOTTY)
    eqn:Hfirst; [reflexivity|].
  apply orb_false_elim in Hfirst. destruct Hfirst as [H1 H2].
  cbn [errors.Is errors.As_PathError] in *.
  destruct (errors.as_PathError e) as [p|] eqn:Hp; [|reflexivity].
  assert (Hsub : forall t, errors.is_errno p t = true -> errors.is_errno e t = true).
  { intros t Ht. apply is_errno_wraps. apply (as_PathError_below e p); [exact Hp|].
    now apply is_errno_wraps. }
  destruct (errors.is_errno p syscall.EINVAL) eqn:H3.
  { rewrite (Hsub _ H3) in H1. discriminate. }
  destruct (errors.is_errno p syscall.ENOTTY) eqn:H4.
  { rewrite (Hsub _ H4) in H2. discriminate. }
  reflexivity.
Qed.

(** ** logx1 context helpers *)

Section ContextHelpers.

Variable L : Type.
Variable global : L.
Variable With : L -> list zapfield.Field -> L.

Lemma FromContext_WithContext_any (ctx : option (context.Context L)) (logger : L) :
  logx1_context.FromContext global
    (Some (logx1_context.WithContext ctx (Some logger)))
  = logger.
Proof. destruct ctx; reflexivity. Qed.

(** X10: a logger stored with [WithContext] is the one [FromContext]
    returns, for every context it is stored into, the nil context
    included, and whatever that context held before. *)
Theorem FromContext_WithContext (ctx : option (context.Context L)) (logger : L) :
  logx1_context.FromContext global
    (Some (logx1_context.WithContext ctx (Some logger)))
  = logger.
Proof. apply FromContext_WithContext_any. Qed.

(** X11: storing a nil logger hides a logger stored earlier: [FromContext]
    then falls back to the global logger, not to the earlier one. *)
Theorem FromContext_WithContext_nil (ctx : option (context.Context L)) (earlier : L) :
  logx1_context.FromContext global
    (Some (logx1_context.WithContext
       (Some (logx1_context.WithContext ctx (Some earlier))) None))
  = global
  /\ logx1_context.FromContext global (Some (logx1_context.WithContext ctx None))
     = global.
Proof. destruct ctx; split; reflexivity. Qed.

(** X12: values stored under the keys of other packages, and contexts
    derived by cancellation or deadline, do not change what [FromContext]
    finds; without any logger stored it is the global logger. *)
Theorem FromContext_ignores_foreign_values
  (ctx : context.Context L) (name : string) (v : context.any L) :
  logx1_context.FromContext global
    (Some (context.WithValue ctx (context.foreign name) v))
  = logx1_context.FromContext global (Some ctx)
  /\ logx1_context.FromContext global (Some (context.Derived ctx))
     = logx1_context.FromContext global (Some ctx)
  /\ logx1_context.FromContext global (Some context.Background) = global
  /\ logx1_context.FromContext global None = global.
Proof. repeat split. Qed.

(** X13: the context that [AttachRequest] returns resolves, through
    [FromContext], to the logger the given context resolved to, with a
    [request_id] field added when the request id is not empty and then a
    [client_ip] field added when the client address is not empty. *)
Theorem FromContext_AttachRequest
  (ctx : option (context.Context L)) (reqID clientIP : string) :
  logx1_context.FromContext global
    (Some (logx1_context.AttachRequest global With ctx reqID clientIP))
  = let l0 := logx1_context.FromContext global ctx in
    let l1 :=
      if String.eqb reqID "" then l0
      else With l0 [zapfield.String_ "request_id" reqID] in
    if String.eqb clientIP "" then l1
    else With l1 [zapfield.String_ "client_ip" clientIP].
Proof.
  unfold logx1_context.AttachRequest. cbv zeta.
  rewrite FromContext_WithContext_any.
  destruct (String.eqb reqID ""), (String.eqb clientIP ""); reflexivity.
Qed.

End ContextHelpers.

(** ** crypto, further *)

Lemma char_bits_sextet (b5 b4 b3 b2 b1 b0 : bool) :
  char_bits (index base64.encodeURL (value_of_bits [b5; b4; b3; b2; b1; b0]))
  = [b5; b4; b3; b2; b1; b0].
Proof. destruct b5, b4, b3, b2, b1, b0; reflexivity. Qed.

Lemma byte_of_bits_of_byte (a : byte) :
  byte_of_bits [bit a 7; bit a 6; bit a 5; bit a 4;
                bit a 3; bit a 2; bit a 1; bit a 0] = a.
Proof. destruct a; reflexivity. Qed.

(** Reading back what the RFC 4648 encoding wrote gives the bytes
    encoded. *)
Lemma rfc4648_base64url_roundtrip (src : list byte) :
  rfc4648_base64url_decode (rfc4648_base64url src) = src.
Proof.
  unfold rfc4648_base64url_decode, rfc4648_base64url.
  rewrite list_ascii_of_string_of_list_ascii. unfold bits_of_bytes.
  induction src as [|a|a b|a b c l IH] using list_ind3.
  - reflexivity.
  - cbn [flat_map bits_of_byte app sextets_of_bits firstn repeat map].
    rewrite !char_bits_sextet. cbn [app bytes_of_bits].
    now rewrite byte_of_bits_of_byte.
  - cbn [flat_map bits_of_byte app sextets_of_bits firstn repeat map].
    rewrite !char_bits_sextet. cbn [app bytes_of_bits].
    now rewrite !byte_of_bits_of_byte.
  - cbn [flat_map bits_of_byte app sextets_of_bits map].
    rewrite !char_bits_sextet. cbn [app bytes_of_bits].
    rewrite !byte_of_bits_of_byte.
    do 3 f_equal. exact IH.
Qed.

Section GenerateRefreshTokenFurther.

Context {S : Type} `{rand.Source S}.

Lemma GenerateRefreshToken_success (s s' : S) (tok : string) :
  crypto.GenerateRefreshToken s = Returns (s', (tok, None)) ->
  exists data : list byte,
    rand.draw s 64 = (s', (data, None))
    /\ tok = rfc4648_base64url data.
Proof.
  intros Hg.
  destruct (GenerateRefreshToken_returns s s' tok None Hg)
    as (data & Hd & _ & -> & _).
  exists data. split; [exact Hd|]. apply RawURLEncoding_refines_rfc4648.
Qed.

(** X14: the bytes that the random source supplied can be read back from
    the token: decoding it as base64url gives exactly those bytes. *)
Theorem GenerateRefreshToken_decodes_to_drawn_bytes (s s' : S) (tok : string) :
  crypto.GenerateRefreshToken s = Returns (s', (tok, None)) ->
  rand.draw s 64 = (s', (rfc4648_base64url_decode tok, None)).
Proof.
  intros Hg. destruct (GenerateRefreshToken_success s s' tok Hg) as (data & Hd & ->).
  now rewrite rfc4648_base64url_roundtrip.
Qed.

End GenerateRefreshTokenFurther.

Lemma GenerateRefreshToken_decodes_to_drawn_bytes_witness :
  rand.draw 0%nat 64
  = (64%nat, (rfc4648_base64url_decode counter_token, None)).
Proof.
  apply (GenerateRefreshToken_decodes_to_drawn_bytes 0%nat 64%nat counter_token).
  vm_compute. reflexivity.
Defined.

(** X15: the fingerprint is a faithful rendering of the digest: decoding
    the result of [HashToken] as hexadecimal succeeds and gives the 32
    bytes of the SHA-256 digest of the input. *)
Theorem HashToken_decodes_to_digest (s : string) :
  hex.DecodeString (crypto.HashToken s)
  = Some (sha256.Sum256 (bytes_of_string s)).
Proof. unfold crypto.HashToken. apply hex_roundtrip. Qed.

(** ** jwt.GenerateToken, further *)

Lemma string_app_assoc (a b c : string) :
  ((a ++ b) ++ c = a ++ (b ++ c))%string.
Proof. induction a as [|x a IH]; cbn; [reflexivity|]. now rewrite IH. Qed.

Lemma split_on_segment (sep : ascii) (a b : string) :
  string_forall (fun c => negb (Ascii.eqb c sep)) a = true ->
  split_on sep (a ++ String sep b)%string = a :: split_on sep b.
Proof.
  induction a as [|c a IH]; cbn [string_forall String.append split_on]; intros H.
  - now rewrite Ascii.eqb_refl.
  - apply andb_prop in H. destruct H as [Hc Ha].
    apply negb_true_iff in Hc. rewrite Hc, (IH Ha). reflexivity.
Qed.

Lemma split_on_last (sep : ascii) (a : string) :
  string_forall (fun c => negb (Ascii.eqb c sep)) a = true ->
  split_on sep a = [a].
Proof.
  induction a as [|c a IH]; cbn [string_forall split_on]; intros H;
    [reflexivity|].
  apply andb_prop in H. destruct H as [Hc Ha].
  apply negb_true_iff in Hc. rewrite Hc, (IH Ha). reflexivity.
Qed.

Lemma base64url_char_not_dot (c : ascii) :
  is_base64url c = true -> negb (Ascii.eqb c ".") = true.
Proof.
  destruct c as [[] [] [] [] [] [] [] []]; vm_compute; congruence.
Qed.

Lemma base64url_no_dot (s : string) :
  string_forall is_base64url s = true ->
  string_forall (fun c => negb (Ascii.eqb c ".")) s = true.
Proof.
  induction s as [|c s IH]; cbn [string_forall]; [reflexivity|].
  intros H. apply andb_prop in H. destruct H as [Hc Hs].
  now rewrite (base64url_char_not_dot c Hc), (IH Hs).
Qed.

Lemma hmac_SumSHA256_length (key msg : list byte) :
  List.length (hmac.SumSHA256 key msg) = 32%nat.
Proof. unfold hmac.SumSHA256. cbv zeta. apply Sum256_length. Qed.

Lemma EncodeSegment_header :
  jwtlib.EncodeSegment (json.Marshal_map [("typ", "JWT"); ("alg", "HS256")])
  = HS256_header_segment.
Proof. vm_compute. reflexivity. Qed.

Section GenerateTokenFurther.

Variable Claims : Type.
Variable Marshal_claims : Claims -> list byte * option error.

(** The token of a successful call, written out. *)
Lemma GenerateToken_success (secret : list byte) (claims : Claims) (c : list byte) :
  Marshal_claims claims = (c, None) ->
  jwt.GenerateToken Marshal_claims secret claims
  = ((HS256_header_segment ++ "." ++ jwtlib.EncodeSegment c) ++ "." ++
       jwtlib.EncodeSegment
         (hmac.SumSHA256 secret
            (bytes_of_string
               (HS256_header_segment ++ "." ++ jwtlib.EncodeSegment c))),
     None)%string.
Proof.
  intros Hm.
  unfold jwt.GenerateToken, jwt.GenerateToken_t, jwtlib.SignedString,
    jwtlib.SigningString, jwtlib.NewWithClaims.
  cbn [jwtlib.Header jwtlib.TokenClaims jwtlib.Method jwtlib.Alg jwtlib.Sign
       jwtlib.SigningMethodHS256].
  rewrite Hm. rewrite EncodeSegment_header. reflexivity.
Qed.

(** X16: [GenerateToken] fails exactly when [json.Marshal] of the claims
    fails, and then returns the empty string with that error unchanged; the
    secret never makes it fail, an empty one included. *)
Theorem GenerateToken_fails_only_on_marshal (secret : list byte) (claims : Claims) :
  snd (jwt.GenerateToken Marshal_claims secret claims)
  = snd (Marshal_claims claims)
  /\ (snd (Marshal_claims claims) <> None ->
      fst (jwt.GenerateToken Marshal_claims secret claims) = EmptyString).
Proof.
  destruct (Marshal_claims claims) as [c [e|]] eqn:Hm.
  - unfold jwt.GenerateToken, jwt.GenerateToken_t, jwtlib.SignedString,
      jwtlib.SigningString, jwtlib.NewWithClaims.
    cbn [jwtlib.Header jwtlib.TokenClaims jwtlib.Method]. rewrite Hm.
    split; [reflexivity|]. intros _. reflexivity.
  - rewrite (GenerateToken_success secret claims c Hm).
    split; [reflexivity|]. intros Hn. now contradiction Hn.
Qed.

(** X17: every token that [GenerateToken] returns consists of the fixed
    HS256 header segment, the base64url form of the marshalled claims and
    a signature segment of exactly 43 characters, joined by dots; all three
    segments use the base64url alphabet only. *)
Theorem GenerateToken_token_shape (secret : list byte) (claims : Claims) (c : list byte) :
  Marshal_claims claims = (c, None) ->
  exists sig : string,
    jwt.GenerateToken Marshal_claims secret claims
    = ((HS256_header_segment ++ "." ++ jwtlib.EncodeSegment c) ++ "." ++ sig,
       None)%string
    /\ String.length sig = 43%nat
    /\ string_forall is_base64url HS256_header_segment = true
    /\ string_forall is_base64url (jwtlib.EncodeSegment c) = true
    /\ string_forall is_base64url sig = true.
Proof.
  intros Hm. eexists. split; [apply (GenerateToken_success secret claims c Hm)|].
  split; [|split; [|split]].
  - unfold jwtlib.EncodeSegment.
    rewrite base64_EncodeToString_length, hmac_SumSHA256_length. reflexivity.
  - reflexivity.
  - apply RawURL_alphabet.
  - apply RawURL_alphabet.
Qed.

Lemma GenerateToken_split (secret : list byte) (claims : Claims)
  (c : list byte) (tok : string) :
  Marshal_claims claims = (c, None) ->
  jwt.GenerateToken Marshal_claims secret claims = (tok, None) ->
  split_on "." tok
  = [ HS256_header_segment;
      jwtlib.EncodeSegment c;
      jwtlib.EncodeSegment
        (hmac.SumSHA256 secret
           (bytes_of_string
              (HS256_header_segment ++ "." ++ jwtlib.EncodeSegment c)%string)) ].
Proof.
  intros Hm Ht. rewrite (GenerateToken_success secret claims c Hm) in Ht.
  apply (f_equal fst) in Ht. cbn [fst] in Ht. subst tok.
  rewrite string_app_assoc. cbn [String.append].
  rewrite split_on_segment by (apply base64url_no_dot; reflexivity).
  rewrite split_on_segment by (apply base64url_no_dot, RawURL_alphabet).
  rewrite split_on_last by (apply base64url_no_dot, RawURL_alphabet).
  reflexivity.
Qed.

(** X18: a token of [GenerateToken] has exactly two dots: splitting it at
    the dots gives back its three segments. *)
Theorem GenerateToken_three_segments (secret : list byte) (claims : Claims)
  (c : list byte) (tok : string) :
  Marshal_claims claims = (c, None) ->
  jwt.GenerateToken Marshal_claims secret claims = (tok, None) ->
  split_on "." tok
  = [ HS256_header_segment;
      jwtlib.EncodeSegment c;
      jwtlib.EncodeSegment
        (hmac.SumSHA256 secret
           (bytes_of_string
              (HS256_header_segment ++ "." ++ jwtlib.EncodeSegment c)%string)) ].
Proof. apply GenerateToken_split. Qed.

(** X19: the marshalled claims can be read back from the token: the second
    of its segments, decoded as base64url, is exactly the output of
    [json.Marshal] for the claims. *)
Theorem GenerateToken_claims_read_back (secret : list byte) (claims : Claims)
  (c : list byte) (tok : string) :
  Marshal_claims claims = (c, None) ->
  jwt.GenerateToken Marshal_claims secret claims = (tok, None) ->
  rfc4648_base64url_decode (nth 1 (split_on "." tok) EmptyString) = c.
Proof.
  intros Hm Ht. rewrite (GenerateToken_split secret claims c tok Hm Ht).
  cbn [nth]. unfold jwtlib.EncodeSegment.
  rewrite RawURLEncoding_refines_rfc4648. apply rfc4648_base64url_roundtrip.
Qed.

End GenerateTokenFurther.

Lemma GenerateToken_token_shape_witness :
  exists sig : string,
    jwt.GenerateToken (fun c : string => (bytes_of_string c, None))
      (bytes_of_string "your-256-bit-secret") example_payload
    = ((HS256_header_segment ++ "." ++
          jwtlib.EncodeSegment (bytes_of_string example_payload)) ++ "." ++ sig,
       None)%string
    /\ String.length sig = 43%nat
    /\ string_forall is_base64url HS256_header_segment = true
    /\ string_forall is_base64url
         (jwtlib.EncodeSegment (bytes_of_string example_payload)) = true
    /\ string_forall is_base64url sig = true.
Proof.
  apply (GenerateToken_token_shape string
           (fun c : string => (bytes_of_string c, None))
           (bytes_of_string "your-256-bit-secret") example_payload
           (bytes_of_string example_payload)).
  reflexivity.
Defined.

Lemma GenerateToken_claims_read_back_witness :
  rfc4648_base64url_decode
    (nth 1 (split_on "."
       ("eyJhbGciOiJIUzI1NiIsInR5cCI6IkpXVCJ9."
        ++ "eyJzdWIiOiIxMjM0NTY3ODkwIiwibmFtZSI6IkpvaG4gRG9lIiwiaWF0IjoxNTE2MjM5MDIyfQ."
        ++ "SflKxwRJSMeKKF2QT4fwpMeJf36POk6yJV_adQssw5c")%string) EmptyString)
  = bytes_of_string example_payload.
Proof.
  apply (GenerateToken_claims_read_back string
           (fun c : string => (bytes_of_string c, None))
           (bytes_of_string "your-256-bit-secret") example_payload
           (bytes_of_string example_payload)).
  - reflexivity.
  - vm_compute. reflexivity.
Defined.

Lemma GenerateToken_three_segments_witness :
  split_on "."
    ("eyJhbGciOiJIUzI1NiIsInR5cCI6IkpXVCJ9."
     ++ "eyJzdWIiOiIxMjM0NTY3ODkwIiwibmFtZSI6IkpvaG4gRG9lIiwiaWF0IjoxNTE2MjM5MDIyfQ."
     ++ "SflKxwRJSMeKKF2QT4fwpMeJf36POk6yJV_adQssw5c")%string
  = [ "eyJhbGciOiJIUzI1NiIsInR5cCI6IkpXVCJ9";
      "eyJzdWIiOiIxMjM0NTY3ODkwIiwibmFtZSI6IkpvaG4gRG9lIiwiaWF0IjoxNTE2MjM5MDIyfQ";
      "SflKxwRJSMeKKF2QT4fwpMeJf36POk6yJV_adQssw5c" ]%string.
Proof.
  refine (eq_trans
    (GenerateToken_three_segments string
       (fun c : string => (bytes_of_string c, None))
       (bytes_of_string "your-256-bit-secret") example_payload
       (bytes_of_string example_payload) _ eq_refl _) _).
  - vm_compute. reflexivity.
  - vm_compute. reflexivity.
Defined.

(** ** logx1.normalized, applied twice *)

Lemma downcase_idempotent (c : byte) : downcase (downcase c) = downcase c.
Proof. destruct c; reflexivity. Qed.

Lemma cont_is_copied (c o : byte) :
  o = downcase c \/ o = x00 -> utf8.is_cont o = true -> o = c.
Proof.
  intros [->| ->]; [|discriminate].
  destruct c; vm_compute; congruence.
Qed.

Ltac split_ifs :=
  repeat match goal with
         | |- context [if ?b then _ else _] => destruct b
         end.

Lemma decoderune_width_pos (s : list byte) :
  (1 <= snd (utf8.decoderune s))%nat.
Proof.
  unfold utf8.decoderune.
  destruct s as [|c0 [|c1 [|c2 [|c3 s]]]]; cbv zeta; split_ifs; cbn; lia.
Qed.

Lemma decoderune_single (c : byte) : snd (utf8.decoderune [c]) = 1%nat.
Proof. unfold utf8.decoderune. cbv zeta. split_ifs; reflexivity. Qed.

(** A zero byte after the lead byte ends the rune at once. *)
Lemma decoderune_before_zero (c : byte) (t : list byte) :
  snd (utf8.decoderune (c :: x00 :: t)) = 1%nat.
Proof.
  unfold utf8.decoderune. cbv zeta.
  change (utf8.is_cont x00) with false.
  destruct t as [|c2 [|c3 t]]; cbn [andb]; split_ifs; reflexivity.
Qed.

(** Where the buffer differs from the input it holds no continuation byte,
    so a lead byte decodes over the buffer as over the input, or fails. *)
Lemma decoderune_over_buffer (c : byte) (r o : list byte) :
  Forall2 (fun c o => o = downcase c \/ o = x00) r o ->
  snd (utf8.decoderune (c :: o)) = 1%nat
  \/ utf8.decoderune (c :: o) = utf8.decoderune (c :: r).
Proof.
  intros HF. unfold utf8.decoderune. cbv zeta.
  destruct ((0xC0 <=? byte_val c) && (byte_val c <? 0xE0))%Z.
  { destruct HF as [|c1 o1 r o H1 HF]; [left; reflexivity|].
    destruct (utf8.is_cont o1) eqn:E1; [|left; reflexivity].
    pose proof (cont_is_copied c1 o1 H1 E1); subst o1. rewrite E1. now right. }
  destruct ((0xE0 <=? byte_val c) && (byte_val c <? 0xF0))%Z.
  { destruct HF as [|c1 o1 r o H1 HF]; [left; reflexivity|].
    destruct HF as [|c2 o2 r o H2 HF]; [left; reflexivity|].
    destruct (utf8.is_cont o1) eqn:E1; [|left; reflexivity].
    destruct (utf8.is_cont o2) eqn:E2; [|left; reflexivity].
    pose proof (cont_is_copied c1 o1 H1 E1); subst o1.
    pose proof (cont_is_copied c2 o2 H2 E2); subst o2. rewrite E1, E2. now right. }
  destruct ((0xF0 <=? byte_val c) && (byte_val c <? 0xF8))%Z.
  { destruct HF as [|c1 o1 r o H1 HF]; [left; reflexivity|].
    destruct HF as [|c2 o2 r o H2 HF]; [left; reflexivity|].
    destruct HF as [|c3 o3 r o H3 HF]; [left; reflexivity|].
    destruct (utf8.is_cont o1) eqn:E1; [|left; reflexivity].
    destruct (utf8.is_cont o2) eqn:E2; [|left; reflexivity].
    destruct (utf8.is_cont o3) eqn:E3; [|left; reflexivity].
    pose proof (cont_is_copied c1 o1 H1 E1); subst o1.
    pose proof (cont_is_copied c2 o2 H2 E2); subst o2.
    pose proof (cont_is_copied c3 o3 H3 E3); subst o3. rewrite E1, E2, E3. now right. }
  left. reflexivity.
Qed.

(** In the buffer every rune that starts where a rune of the input
    started is one byte wide. *)
Lemma buffer_rune_width (c : byte) (r : list byte) :
  snd (utf8.next_rune
         (downcase c :: downcase_starts r (snd (utf8.next_rune (c :: r)) - 1)))
  = 1%nat.
Proof.
  destruct (is_ascii c) eqn:Ha.
  - apply next_rune_ascii. destruct (downcase_facts c) as (_ & -> & _). exact Ha.
  - destruct (downcase_facts c) as (_ & _ & _ & Hd). rewrite (Hd Ha).
    unfold utf8.next_rune. unfold is_ascii in Ha. rewrite Ha.
    pose proof (decoderune_width_pos (c :: r)) as Hpos.
    destruct (snd (utf8.decoderune (c :: r))) as [|[|w]] eqn:Hw; [lia| |].
    + cbn [Nat.sub].
      destruct (decoderune_over_buffer c r _ (downcase_starts_pointwise r 0))
        as [H1|H1]; [exact H1|]. now rewrite H1.
    + destruct r as [|c1 r]; [rewrite decoderune_single in Hw; discriminate|].
      cbn [Nat.sub downcase_starts]. apply decoderune_before_zero.
Qed.

Lemma downcase_starts_idempotent (s : list byte) (skip : nat) :
  downcase_starts (downcase_starts s skip) 0 = downcase_starts s skip.
Proof.
  revert skip. induction s as [|c r IH]; intros skip; [reflexivity|].
  destruct skip as [|k].
  - cbn [downcase_starts]. cbn [downcase_starts].
    rewrite buffer_rune_width. cbn [Nat.sub].
    now rewrite downcase_idempotent, IH.
  - cbn [downcase_starts]. cbn [downcase_starts].
    rewrite (next_rune_ascii x00) by reflexivity. cbn [Nat.sub].
    rewrite IH. reflexivity.
Qed.

(** X20: [normalized] is idempotent on every string, also where the first
    pass has put zero bytes into multi-byte sequences. *)
Theorem normalized_idempotent (s : string) :
  logx1_preset.normalized (logx1_preset.normalized s)
  = logx1_preset.normalized s.
Proof.
  apply bytes_of_string_inj. rewrite (normalized_bytes (logx1_preset.normalized s)).
  rewrite normalized_bytes. apply downcase_starts_idempotent.
Qed.

(** ** date *)

Section Clock.

Local Open Scope Z_scope.

Lemma Add_exact (t : time.Time) (d : Z) :
  0 <= time.Nanosecond t < 1000000000 ->
  0 <= time.Nanosecond (time.Add t d) < 1000000000
  /\ time.Unix (time.Add t d) * 1000000000 + time.Nanosecond (time.Add t d)
     = time.Unix t * 1000000000 + time.Nanosecond t + d.
Proof.
  intros Hn. unfold time.Add. cbv zeta.
  pose proof (Z.quot_rem' d 1000000000) as Hqr.
  pose proof (Z.rem_bound_abs d 1000000000 ltac:(discriminate)) as Hb.
  set (q := Z.quot d 1000000000) in *. set (r := Z.rem d 1000000000) in *.
  destruct (1000000000 <=? time.Nanosecond t + r) eqn:E1;
    [apply Z.leb_le in E1 | apply Z.leb_gt in E1].
  - cbn [time.Unix time.Nanosecond]. lia.
  - destruct (time.Nanosecond t + r <? 0) eqn:E2;
      [apply Z.ltb_lt in E2 | apply Z.ltb_ge in E2];
      cbn [time.Unix time.Nanosecond]; lia.
Qed.

(** X21: [AddTime(delta)] is the clock reading moved by exactly [delta]
    nanoseconds, negative deltas included; its nanosecond stays within the
    second, and its Unix second is not before [NowUnix()] for a delta that
    is not negative and not after it for a delta that is not positive. *)
Theorem AddTime_moves_by_delta (now : time.Time) (delta : Z) :
  clock_reading now -> is_duration delta ->
  let t := date.AddTime now delta in
  0 <= time.Nanosecond t < 1000000000
  /\ time.Unix t * 1000000000 + time.Nanosecond t
     = date.NowUnix now * 1000000000 + time.Nanosecond now + delta
  /\ (0 <= delta -> date.NowUnix now <= time.Unix t)
  /\ (delta <= 0 -> time.Unix t <= date.NowUnix now).
Proof.
  intros [Hn _] _. cbv zeta. unfold date.AddTime, date.NowUnix.
  destruct (Add_exact now delta Hn) as [Hr He].
  repeat split; try tauto; lia.
Qed.

(** X22: for a whole number of seconds [AddTime] moves the Unix second by
    that number and keeps the nanosecond: [AddTime(k * time.Second).Unix()]
    is [NowUnix() + k] at the same clock reading. *)
Theorem AddTime_whole_seconds (now : time.Time) (k : Z) :
  clock_reading now -> is_duration (k * 1000000000) ->
  time.Unix (date.AddTime now (k * 1000000000)) = date.NowUnix now + k
  /\ time.Nanosecond (date.AddTime now (k * 1000000000))
     = time.Nanosecond now.
Proof.
  intros [Hn _] _. unfold date.AddTime, date.NowUnix.
  destruct (Add_exact now (k * 1000000000) Hn) as [Hr He].
  split; lia.
Qed.

End Clock.

Lemma AddTime_moves_by_delta_witness :
  let now := time.mkTime 1700000000 999999999 in
  let t := date.AddTime now (-1500000000) in
  (0 <= time.Nanosecond t < 1000000000)%Z
  /\ (time.Unix t * 1000000000 + time.Nanosecond t
      = date.NowUnix now * 1000000000 + time.Nanosecond now + -1500000000)%Z
  /\ ((0 <= -1500000000)%Z -> (date.NowUnix now <= time.Unix t)%Z)
  /\ ((-1500000000 <= 0)%Z -> (time.Unix t <= date.NowUnix now)%Z).
Proof.
  apply (AddTime_moves_by_delta (time.mkTime 1700000000 999999999) (-1500000000)).
  - unfold clock_reading. cbn. lia.
  - unfold is_duration. lia.
Defined.

Lemma AddTime_whole_seconds_witness :
  time.Unix (date.AddTime (time.mkTime 1700000000 5) (3600 * 1000000000))
  = (date.NowUnix (time.mkTime 1700000000 5) + 3600)%Z
  /\ time.Nanosecond (date.AddTime (time.mkTime 1700000000 5) (3600 * 1000000000))
     = time.Nanosecond (time.mkTime 1700000000 5).
Proof.
  apply (AddTime_whole_seconds (time.mkTime 1700000000 5) 3600).
  - unfold clock_reading. cbn. lia.
  - unfold is_duration. lia.
Defined.
